(** * Multiplication game: game model, minimax and alpha-beta search

    A shallow embedding of [MI_Project.py].  Python integers are unbounded
    and are modelled by [Z]; the two floats the program uses,
    [float('-inf')] and [float('inf')], only ever meet integers in
    comparisons and in [max]/[min], so scores are modelled by integers
    extended with the two infinities.  The global counter [NODES_VISITED]
    is threaded explicitly through a small state monad.  The recursion of
    the two searches is bounded in the model by a [fuel] argument: running
    out of fuel stands for a Python call that never returns a value. *)

From Stdlib Require Import ZArith List Bool String Lia Orders OrdersTac.
From Stdlib Require Import DecimalString.
Import ListNotations.
Local Open Scope Z_scope.

(** ** Game logic and data structures *)

Inductive Player : Type := HUMAN | COMPUTER.

Definition Player_eqb (p q : Player) : bool :=
  match p, q with
  | HUMAN, HUMAN | COMPUTER, COMPUTER => true
  | _, _ => false
  end.

Record GameState : Type := mkGameState {
  current_number : Z;
  human_score : Z;
  computer_score : Z;
  current_player : Player
}.

Definition copy (self : GameState) : GameState :=
  mkGameState (current_number self) (human_score self)
              (computer_score self) (current_player self).

(** Attribute assignments on a state object. *)
Definition set_current_number (v : Z) (s : GameState) : GameState :=
  mkGameState v (human_score s) (computer_score s) (current_player s).
Definition set_human_score (v : Z) (s : GameState) : GameState :=
  mkGameState (current_number s) v (computer_score s) (current_player s).
Definition set_computer_score (v : Z) (s : GameState) : GameState :=
  mkGameState (current_number s) (human_score s) v (current_player s).
Definition set_current_player (p : Player) (s : GameState) : GameState :=
  mkGameState (current_number s) (human_score s) (computer_score s) p.

Definition is_terminal (state : GameState) : bool :=
  current_number state >=? 1200.

Definition evaluate (state : GameState) : Z :=
  if is_terminal state then
    if human_score state >? computer_score state then -999999
    else if computer_score state >? human_score state then 999999
    else 0
  else computer_score state - human_score state.

(** The body of the [for multiplier in [2, 3, 4]] loop of [get_successors]:
    the child built for one multiplier. *)
Definition successor (state : GameState) (multiplier : Z) : GameState :=
  let child := copy state in
  let new_number := current_number child * multiplier in
  let child := set_current_number new_number child in
  let child :=
    if new_number mod 2 =? 0 then
      if Player_eqb (current_player child) HUMAN
      then set_computer_score (computer_score child - 1) child
      else set_human_score (human_score child - 1) child
    else
      if Player_eqb (current_player child) HUMAN
      then set_human_score (human_score child + 1) child
      else set_computer_score (computer_score child + 1) child in
  if new_number <? 1200 then
    if Player_eqb (current_player child) HUMAN
    then set_current_player COMPUTER child
    else set_current_player HUMAN child
  else child.

Definition get_successors (state : GameState) : list (Z * GameState) :=
  if is_terminal state then []
  else map (fun multiplier => (multiplier, successor state multiplier)) [2; 3; 4].

(** ** Scores: integers and the two infinite floats *)

Inductive number : Type :=
| NegInf            (* float('-inf') *)
| Int (z : Z)       (* a Python int *)
| PosInf.           (* float('inf') *)

(** [x < y] *)
Definition num_ltb (x y : number) : bool :=
  match x, y with
  | NegInf, NegInf => false
  | NegInf, _ => true
  | Int _, NegInf => false
  | Int a, Int b => a <? b
  | Int _, PosInf => true
  | PosInf, _ => false
  end.

(** [x > y], [x >= y], [x <= y] *)
Definition num_gtb (x y : number) : bool := num_ltb y x.
Definition num_geb (x y : number) : bool := negb (num_ltb x y).
Definition num_leb (x y : number) : bool := negb (num_ltb y x).

(** Python's [max(a, b)] keeps [a] unless [b > a]; [min(a, b)] keeps [a]
    unless [b < a]. *)
Definition num_max (a b : number) : number := if num_gtb b a then b else a.
Definition num_min (a b : number) : number := if num_ltb b a then b else a.

(** ** The counter monad

    A computation reads and updates [NODES_VISITED]; [None] is a call that
    produces no value. *)

Definition M (A : Type) : Type := Z -> option (A * Z).

Definition ret {A} (a : A) : M A := fun n => Some (a, n).
Definition bind {A B} (m : M A) (k : A -> M B) : M B :=
  fun n => match m n with
           | Some (a, n') => k a n'
           | None => None
           end.
Definition no_value {A} : M A := fun _ => None.

(** [NODES_VISITED += 1] and [NODES_VISITED = 0] *)
Definition tick : M unit := fun n => Some (tt, n + 1).
Definition reset : M unit := fun _ => Some (tt, 0).
Definition get_counter : M Z := fun n => Some (n, n).

Notation "x <- c1 ;; c2" := (bind c1 (fun x => c2))
  (at level 61, c1 at next level, right associativity).
Notation "' pat <- c1 ;; c2" := (bind c1 (fun x => match x with pat => c2 end))
  (at level 61, pat pattern, c1 at next level, right associativity).
Notation "c1 ;; c2" := (bind c1 (fun _ => c2))
  (at level 61, right associativity).

(** The [(value, move)] part of what a computation returns. *)
Definition result {A} (r : option (A * Z)) : option A :=
  match r with Some (a, _) => Some a | None => None end.

(** The counter a computation leaves behind. *)
Definition counter_after {A} (r : option (A * Z)) : option Z :=
  match r with Some (_, n) => Some n | None => None end.

(** ** Minimax and alpha-beta *)

Definition search_result : Type := number * option Z.

Section Loops.

(** The [for move, child_state in get_successors(state)] loops.  [rec] is
    the recursive call made on each child. *)

Variable rec : GameState -> M search_result.

Fixpoint minimax_max_loop (successors : list (Z * GameState))
    (best_value : number) (best_move : option Z) : M search_result :=
  match successors with
  | [] => ret (best_value, best_move)
  | (move, child_state) :: rest =>
      '(val, _) <- rec child_state ;;
      if num_gtb val best_value
      then minimax_max_loop rest val (Some move)
      else minimax_max_loop rest best_value best_move
  end.

Fixpoint minimax_min_loop (successors : list (Z * GameState))
    (best_value : number) (best_move : option Z) : M search_result :=
  match successors with
  | [] => ret (best_value, best_move)
  | (move, child_state) :: rest =>
      '(val, _) <- rec child_state ;;
      if num_ltb val best_value
      then minimax_min_loop rest val (Some move)
      else minimax_min_loop rest best_value best_move
  end.

End Loops.

Section AlphaBetaLoops.

Variable rec : GameState -> number -> number -> M search_result.

Fixpoint alpha_beta_max_loop (successors : list (Z * GameState))
    (alpha beta best_value : number) (best_move : option Z) : M search_result :=
  match successors with
  | [] => ret (best_value, best_move)
  | (move, child_state) :: rest =>
      '(val, _) <- rec child_state alpha beta ;;
      let '(best_value, best_move) :=
        if num_gtb val best_value then (val, Some move)
        else (best_value, best_move) in
      let alpha := num_max alpha best_value in
      if num_geb alpha beta then ret (best_value, best_move)
      else alpha_beta_max_loop rest alpha beta best_value best_move
  end.

Fixpoint alpha_beta_min_loop (successors : list (Z * GameState))
    (alpha beta best_value : number) (best_move : option Z) : M search_result :=
  match successors with
  | [] => ret (best_value, best_move)
  | (move, child_state) :: rest =>
      '(val, _) <- rec child_state alpha beta ;;
      let '(best_value, best_move) :=
        if num_ltb val best_value then (val, Some move)
        else (best_value, best_move) in
      let beta := num_min beta best_value in
      if num_leb beta alpha then ret (best_value, best_move)
      else alpha_beta_min_loop rest alpha beta best_value best_move
  end.

End AlphaBetaLoops.

Fixpoint minimax (fuel : nat) (state : GameState) (depth : Z)
    (maximizing_player : bool) : M search_result :=
  match fuel with
  | O => no_value
  | S fuel' =>
      tick ;;
      if (depth =? 0) || is_terminal state then
        ret (Int (evaluate state), None)
      else if maximizing_player then
        minimax_max_loop (fun child => minimax fuel' child (depth - 1) false)
          (get_successors state) NegInf None
      else
        minimax_min_loop (fun child => minimax fuel' child (depth - 1) true)
          (get_successors state) PosInf None
  end.

Fixpoint alpha_beta (fuel : nat) (state : GameState) (depth : Z)
    (alpha beta : number) (maximizing_player : bool) : M search_result :=
  match fuel with
  | O => no_value
  | S fuel' =>
      tick ;;
      if (depth =? 0) || is_terminal state then
        ret (Int (evaluate state), None)
      else if maximizing_player then
        alpha_beta_max_loop
          (fun child a b => alpha_beta fuel' child (depth - 1) a b false)
          (get_successors state) alpha beta NegInf None
      else
        alpha_beta_min_loop
          (fun child a b => alpha_beta fuel' child (depth - 1) a b true)
          (get_successors state) alpha beta PosInf None
  end.

Definition computer_move (fuel : nat) (state : GameState) (algorithm : string)
    (depth : Z) : M (option Z) :=
  if String.eqb algorithm "Minimax" then
    '(_, move) <- minimax fuel state depth true ;;
    ret move
  else
    '(_, move) <- alpha_beta fuel state depth NegInf PosInf true ;;
    ret move.

(** ** The state kept by the Tkinter window

    The window once a game has been started.  Only the fields the game
    logic reads or writes are kept: the current [GameState], the [game_over]
    flag, the selected algorithm and the number shown by the "Visited Nodes"
    label.  Widgets, timers and the wall clock are left out. *)

Module GameGUI.

Record t : Type := mk {
  state : GameState;
  game_over : bool;
  algorithm : string;
  nodes_label_var : Z
}.

Definition set_state (s : GameState) (self : t) : t :=
  mk s (game_over self) (algorithm self) (nodes_label_var self).
Definition set_game_over (b : bool) (self : t) : t :=
  mk (state self) b (algorithm self) (nodes_label_var self).
Definition set_nodes_label_var (n : Z) (self : t) : t :=
  mk (state self) (game_over self) (algorithm self) n.

(** [start_game]: [initial_num], [first_player] and [algorithm] are the
    values read from the settings widgets. *)
Definition start_game (initial_num : Z) (first_player algorithm : string) : M t :=
  reset ;;
  let init_num := initial_num in
  let first_p := if String.eqb first_player "Human" then HUMAN else COMPUTER in
  ret (mk (mkGameState init_num 0 0 first_p) false algorithm 0).

Definition apply_move (self : t) (multiplier : Z) : t :=
  let new_number := current_number (state self) * multiplier in
  let self :=
    if new_number mod 2 =? 0 then
      if Player_eqb (current_player (state self)) HUMAN
      then set_state (set_computer_score (computer_score (state self) - 1) (state self)) self
      else set_state (set_human_score (human_score (state self) - 1) (state self)) self
    else
      if Player_eqb (current_player (state self)) HUMAN
      then set_state (set_human_score (human_score (state self) + 1) (state self)) self
      else set_state (set_computer_score (computer_score (state self) + 1) (state self)) self in
  let self := set_state (set_current_number new_number (state self)) self in
  if new_number >=? 1200 then set_game_over true self
  else
    if Player_eqb (current_player (state self)) HUMAN
    then set_state (set_current_player COMPUTER (state self)) self
    else set_state (set_current_player HUMAN (state self)) self.

Definition user_move (self : t) (multiplier : Z) : t :=
  if game_over self || negb (Player_eqb (current_player (state self)) HUMAN)
  then self
  else apply_move self multiplier.

(** [computer_turn]: [apply_move(None)] raises a [TypeError], which is a
    call without a value here. *)
Definition computer_turn (fuel : nat) (self : t) : M t :=
  if game_over self || negb (Player_eqb (current_player (state self)) COMPUTER)
  then ret self
  else
    reset ;;
    move <- computer_move fuel (state self) (algorithm self) 10 ;;
    n <- get_counter ;;
    let self := set_nodes_label_var n self in
    match move with
    | Some multiplier => ret (apply_move self multiplier)
    | None => no_value
    end.

End GameGUI.

(** ** The searches without the counter

    The same two functions with [NODES_VISITED] erased; [minimax_erase] and
    [alpha_beta_erase] below show that they compute the [result] of the
    functions above, whatever the counter is. *)

Section PureLoops.

Variable rec : GameState -> option search_result.

Fixpoint pure_max_loop (successors : list (Z * GameState))
    (best_value : number) (best_move : option Z) : option search_result :=
  match successors with
  | [] => Some (best_value, best_move)
  | (move, child_state) :: rest =>
      match rec child_state with
      | None => None
      | Some (val, _) =>
          if num_gtb val best_value
          then pure_max_loop rest val (Some move)
          else pure_max_loop rest best_value best_move
      end
  end.

Fixpoint pure_min_loop (successors : list (Z * GameState))
    (best_value : number) (best_move : option Z) : option search_result :=
  match successors with
  | [] => Some (best_value, best_move)
  | (move, child_state) :: rest =>
      match rec child_state with
      | None => None
      | Some (val, _) =>
          if num_ltb val best_value
          then pure_min_loop rest val (Some move)
          else pure_min_loop rest best_value best_move
      end
  end.

End PureLoops.

Section PureAlphaBetaLoops.

Variable rec : GameState -> number -> number -> option search_result.

Fixpoint pure_ab_max_loop (successors : list (Z * GameState))
    (alpha beta best_value : number) (best_move : option Z)
    : option search_result :=
  match successors with
  | [] => Some (best_value, best_move)
  | (move, child_state) :: rest =>
      match rec child_state alpha beta with
      | None => None
      | Some (val, _) =>
          let '(best_value, best_move) :=
            if num_gtb val best_value then (val, Some move)
            else (best_value, best_move) in
          let alpha := num_max alpha best_value in
          if num_geb alpha beta then Some (best_value, best_move)
          else pure_ab_max_loop rest alpha beta best_value best_move
      end
  end.

Fixpoint pure_ab_min_loop (successors : list (Z * GameState))
    (alpha beta best_value : number) (best_move : option Z)
    : option search_result :=
  match successors with
  | [] => Some (best_value, best_move)
  | (move, child_state) :: rest =>
      match rec child_state alpha beta with
      | None => None
      | Some (val, _) =>
          let '(best_value, best_move) :=
            if num_ltb val best_value then (val, Some move)
            else (best_value, best_move) in
          let beta := num_min beta best_value in
          if num_leb beta alpha then Some (best_value, best_move)
          else pure_ab_min_loop rest alpha beta best_value best_move
      end
  end.

End PureAlphaBetaLoops.

Fixpoint minimax_pure (fuel : nat) (state : GameState) (depth : Z)
    (maximizing_player : bool) : option search_result :=
  match fuel with
  | O => None
  | S fuel' =>
      if (depth =? 0) || is_terminal state then
        Some (Int (evaluate state), None)
      else if maximizing_player then
        pure_max_loop (fun child => minimax_pure fuel' child (depth - 1) false)
          (get_successors state) NegInf None
      else
        pure_min_loop (fun child => minimax_pure fuel' child (depth - 1) true)
          (get_successors state) PosInf None
  end.

Fixpoint alpha_beta_pure (fuel : nat) (state : GameState) (depth : Z)
    (alpha beta : number) (maximizing_player : bool) : option search_result :=
  match fuel with
  | O => None
  | S fuel' =>
      if (depth =? 0) || is_terminal state then
        Some (Int (evaluate state), None)
      else if maximizing_player then
        pure_ab_max_loop
          (fun child a b => alpha_beta_pure fuel' child (depth - 1) a b false)
          (get_successors state) alpha beta NegInf None
      else
        pure_ab_min_loop
          (fun child a b => alpha_beta_pure fuel' child (depth - 1) a b true)
          (get_successors state) alpha beta PosInf None
  end.

(** ** Vocabulary of the properties *)

Definition opponent (p : Player) : Player :=
  match p with HUMAN => COMPUTER | COMPUTER => HUMAN end.

Definition score_of (p : Player) (s : GameState) : Z :=
  match p with HUMAN => human_score s | COMPUTER => computer_score s end.

(** The scoring rule of one transition from [pre] to [post], the mover
    being the player to act in [pre]. *)
Definition parity_rule (pre post : GameState) : Prop :=
  let mover := current_player pre in
  if Z.even (current_number post) then
    score_of (opponent mover) post = score_of (opponent mover) pre - 1
    /\ score_of mover post = score_of mover pre
  else
    score_of mover post = score_of mover pre + 1
    /\ score_of (opponent mover) post = score_of (opponent mover) pre.

Definition score_movement (pre post : GameState) : Z :=
  Z.abs (human_score post - human_score pre)
  + Z.abs (computer_score post - computer_score pre).

(** The turn rule of one transition. *)
Definition turn_rule (pre post : GameState) : Prop :=
  (1200 <= current_number post -> current_player post = current_player pre)
  /\ (current_number post < 1200 ->
      current_player post = opponent (current_player pre)).

(** States of a game started from the settings the window offers (initial
    number 8 to 18, both scores zero) and continued by legal moves. *)
Inductive reachable : GameState -> Prop :=
| reachable_start (initial_num : Z) (first_p : Player) :
    8 <= initial_num <= 18 ->
    reachable (mkGameState initial_num 0 0 first_p)
| reachable_step (s : GameState) (move : Z) (child : GameState) :
    reachable s ->
    In (move, child) (get_successors s) ->
    reachable child.

(** Order on scores, as propositions. *)
Definition num_lt (x y : number) : Prop := num_ltb x y = true.
Definition num_le (x y : number) : Prop := num_ltb y x = false.

(** What a search with window [(alpha, beta)] may return as [r] when the
    exact minimax value is [v]: [v] itself inside the window, and a bound on
    the same side as [v] outside of it. *)
Definition fail_soft (alpha beta v r : number) : Prop :=
  (num_le v alpha -> num_le v r /\ num_le r alpha)
  /\ (num_lt alpha v -> num_lt v beta -> r = v)
  /\ (num_le beta v -> num_le beta r /\ num_le r v).

(** [fuel] is enough for a search of [s] at [depth]: the depth bound is
    reached within [fuel] calls, or the number, being positive, reaches 1200
    within [fuel] calls even along the doubling branch. *)
Definition fuel_suffices (fuel : nat) (s : GameState) (depth : Z) : Prop :=
  0 <= depth < Z.of_nat fuel
  \/ (0 < current_number s
      /\ 1200 <= current_number s * 2 ^ (Z.of_nat fuel - 1)
      /\ fuel <> O).

(** The same computation started with the counter [c] higher. *)
Definition add_counter {A} (c : Z) (r : option (A * Z)) : option (A * Z) :=
  match r with Some (a, n) => Some (a, c + n) | None => None end.

(** [acc] plus the sizes of the subtrees below the successors. *)
Definition sum_sizes (size : GameState -> option Z)
    (successors : list (Z * GameState)) (acc : option Z) : option Z :=
  fold_left (fun acc mc =>
               match acc, size (snd mc) with
               | Some a, Some k => Some (a + k)
               | _, _ => None
               end) successors acc.

(** The number of nodes of the game tree below [s], cut at [depth]: the
    node itself and, unless it is a leaf, the nodes below each successor. *)
Fixpoint tree_size (fuel : nat) (s : GameState) (depth : Z) : option Z :=
  match fuel with
  | O => None
  | S fuel' =>
      if (depth =? 0) || is_terminal s then Some 1
      else sum_sizes (fun child => tree_size fuel' child (depth - 1))
             (get_successors s) (Some 1)
  end.

(** The value of the successor reached by [move], given the values of the
    three successors. *)
Definition value_of (v2 v3 v4 : Z) (move : Z) : Z :=
  if move =? 2 then v2 else if move =? 3 then v3 else v4.

(** [move] is the first best of the three successors: no successor is
    better (greater for the maximizer, smaller for the minimizer) and every
    earlier one is strictly worse. *)
Definition first_best (maximizing_player : bool) (v2 v3 v4 : Z) (move : Z) : Prop :=
  (move = 2 \/ move = 3 \/ move = 4)
  /\ forall m', m' = 2 \/ m' = 3 \/ m' = 4 ->
       (if maximizing_player
        then value_of v2 v3 v4 m' <= value_of v2 v3 v4 move
        else value_of v2 v3 v4 move <= value_of v2 v3 v4 m')
       /\ (m' < move ->
           if maximizing_player
           then value_of v2 v3 v4 m' < value_of v2 v3 v4 move
           else value_of v2 v3 v4 move < value_of v2 v3 v4 m').

(** ** The labels of the window

    [update_display] writes the three scoreboard labels and the status
    line.  [self.state] is [None] until a game is started; an f-string
    prints an integer in decimal, with a minus sign when negative. *)

Module Display.

Local Open Scope string_scope.

Record labels : Type := mk_labels {
  human_score_var : string;
  computer_score_var : string;
  current_number_var : string;
  status_label_var : string
}.

Definition str (n : Z) : string := NilZero.string_of_int (Z.to_int n).

Definition set_status (msg : string) (l : labels) : labels :=
  mk_labels (human_score_var l) (computer_score_var l) (current_number_var l) msg.

Definition update_display (state : option GameState) (l : labels) : labels :=
  match state with
  | None => set_status "No game in progress." l
  | Some st =>
      let l := mk_labels ("Human Score: " ++ str (human_score st))
                         ("Computer Score: " ++ str (computer_score st))
                         ("Current Number: " ++ str (current_number st))
                         (status_label_var l) in
      if is_terminal st then
        if human_score st >? computer_score st
        then set_status "--- GAME OVER ---  Human Wins!" l
        else if computer_score st >? human_score st
        then set_status "--- GAME OVER ---  Computer Wins!" l
        else set_status "--- GAME OVER ---  It's a Tie!" l
      else
        let current :=
          if Player_eqb (current_player st) HUMAN then "Human" else "Computer" in
        set_status ("Current Player: " ++ current) l
  end.

End Display.

(** ** More vocabulary *)

(** The flag [game_over] of the window says what [is_terminal] says of its
    state. *)
Definition gui_consistent (g : GameGUI.t) : Prop :=
  GameGUI.game_over g = is_terminal (GameGUI.state g).

(** The same position seen from the other side: scores and turn exchanged. *)
Definition swap_sides (s : GameState) : GameState :=
  mkGameState (current_number s) (computer_score s) (human_score s)
              (opponent (current_player s)).

Definition num_opp (x : number) : number :=
  match x with NegInf => PosInf | Int z => Int (- z) | PosInf => NegInf end.

Definition opp_result (r : option search_result) : option search_result :=
  match r with Some (v, m) => Some (num_opp v, m) | None => None end.

(** States reached in exactly [k] legal moves from a start the window
    offers. *)
Inductive reachable_in : nat -> GameState -> Prop :=
| reachable_in_start (initial_num : Z) (first_p : Player) :
    8 <= initial_num <= 18 ->
    reachable_in 0 (mkGameState initial_num 0 0 first_p)
| reachable_in_step (k : nat) (s : GameState) (move : Z) (child : GameState) :
    reachable_in k s ->
    In (move, child) (get_successors s) ->
    reachable_in (S k) child.

(** The three scores a finished game can have for the computer. *)
Definition is_outcome (v : Z) : Prop :=
  v = -999999 \/ v = 0 \/ v = 999999.

(** [follows s t]: [t] is [s] or comes after [s] by legal moves. *)
Inductive follows : GameState -> GameState -> Prop :=
| follows_refl (s : GameState) : follows s s
| follows_step (s : GameState) (move : Z) (child t : GameState) :
    In (move, child) (get_successors s) ->
    follows child t ->
    follows s t.

(** The depth bound [depth] is never met below a state with number [n]:
    there is none, or 1200 is reached first even by doubling. *)
Definition exhaustive (n depth : Z) : Prop :=
  depth < 0 \/ 1200 <= n * 2 ^ depth.

(** What the window can show during a session: a game started with a
    number below 1200, then moves of the user through the three buttons
    and turns of the computer that returned. *)
Inductive session : GameGUI.t -> Prop :=
| session_start (initial_num : Z) (first_player algorithm : string)
    (c : Z) (gui : GameGUI.t) (c' : Z) :
    initial_num < 1200 ->
    GameGUI.start_game initial_num first_player algorithm c = Some (gui, c') ->
    session gui
| session_user_move (gui : GameGUI.t) (multiplier : Z) :
    session gui ->
    multiplier = 2 \/ multiplier = 3 \/ multiplier = 4 ->
    session (GameGUI.user_move gui multiplier)
| session_computer_turn (fuel : nat) (gui : GameGUI.t) (c : Z)
    (gui' : GameGUI.t) (c' : Z) :
    session gui ->
    GameGUI.computer_turn fuel gui c = Some (gui', c') ->
    session gui'.

(** ** The calls a pruned search makes

    [alpha_beta_calls] counts the invocations of [alpha_beta] made by one
    call, itself included: one for the call, plus the invocations below
    each child the loop reaches before it breaks.  Which children are
    reached is decided by the scores, taken from [alpha_beta_pure]. *)

Section CallLoops.

Variable val_rec : GameState -> number -> number -> option search_result.
Variable cnt_rec : GameState -> number -> number -> option Z.

Fixpoint calls_max_loop (successors : list (Z * GameState))
    (alpha beta best_value : number) (acc : Z) : option Z :=
  match successors with
  | [] => Some acc
  | (_, child_state) :: rest =>
      match val_rec child_state alpha beta, cnt_rec child_state alpha beta with
      | Some (val, _), Some k =>
          let best_value := if num_gtb val best_value then val else best_value in
          let alpha := num_max alpha best_value in
          if num_geb alpha beta then Some (acc + k)
          else calls_max_loop rest alpha beta best_value (acc + k)
      | _, _ => None
      end
  end.

Fixpoint calls_min_loop (successors : list (Z * GameState))
    (alpha beta best_value : number) (acc : Z) : option Z :=
  match successors with
  | [] => Some acc
  | (_, child_state) :: rest =>
      match val_rec child_state alpha beta, cnt_rec child_state alpha beta with
      | Some (val, _), Some k =>
          let best_value := if num_ltb val best_value then val else best_value in
          let beta := num_min beta best_value in
          if num_leb beta alpha then Some (acc + k)
          else calls_min_loop rest alpha beta best_value (acc + k)
      | _, _ => None
      end
  end.

End CallLoops.

Fixpoint alpha_beta_calls (fuel : nat) (s : GameState) (depth : Z)
    (alpha beta : number) (maximizing_player : bool) : option Z :=
  match fuel with
  | O => None
  | S fuel' =>
      if (depth =? 0) || is_terminal s then Some 1
      else if maximizing_player then
        calls_max_loop
          (fun child a b => alpha_beta_pure fuel' child (depth - 1) a b false)
          (fun child a b => alpha_beta_calls fuel' child (depth - 1) a b false)
          (get_successors s) alpha beta NegInf 1
      else
        calls_min_loop
          (fun child a b => alpha_beta_pure fuel' child (depth - 1) a b true)
          (fun child a b => alpha_beta_calls fuel' child (depth - 1) a b true)
          (get_successors s) alpha beta PosInf 1
  end.

(** The number of search invocations one [computer_move] call makes: the
    whole tree for minimax, the part alpha-beta does not prune otherwise. *)
Definition search_calls (fuel : nat) (s : GameState) (algorithm : string)
    (depth : Z) : option Z :=
  if String.eqb algorithm "Minimax" then tree_size fuel s depth
  else alpha_beta_calls fuel s depth NegInf PosInf true.

(** ** The window before and after Start Game

    [__init__] leaves [self.state = None] and [self.game_over = False], and
    the three move buttons are live from then on.  Here the state of the
    window is optional; reading [self.state.current_player] on [None]
    raises [AttributeError]. *)

Inductive exception : Type := AttributeError | TypeError.

Inductive outcome (A : Type) : Type :=
| Returned (a : A)
| Raised (e : exception).

Arguments Returned {A} a.
Arguments Raised {A} e.

Module Window.

Record t : Type := mk {
  state : option GameState;
  game_over : bool;
  algorithm : string;
  nodes_label_var : Z
}.

(** The fields as [__init__] sets them. *)
Definition init : t := mk None false "Minimax" 0.

(** A window whose game has been started, and back. *)
Definition of_gui (g : GameGUI.t) : t :=
  mk (Some (GameGUI.state g)) (GameGUI.game_over g) (GameGUI.algorithm g)
     (GameGUI.nodes_label_var g).

Definition gui_of (st : GameState) (self : t) : GameGUI.t :=
  GameGUI.mk st (game_over self) (algorithm self) (nodes_label_var self).

(** [user_move]: [or] evaluates [self.state.current_player] only when
    [self.game_over] is false. *)
Definition user_move (self : t) (multiplier : Z) : outcome t :=
  if game_over self then Returned self
  else
    match state self with
    | None => Raised AttributeError
    | Some st =>
        if negb (Player_eqb (current_player st) HUMAN) then Returned self
        else Returned (of_gui (GameGUI.apply_move (gui_of st self) multiplier))
    end.

End Window.

(** * Properties *)

(** ** Order on scores

    The scores form a total order; [num_order] decides goals that follow
    from the order axioms alone. *)

Module NumberOrder <: TotalOrder.
Definition t := number.
Definition eq := @Logic.eq number.
Definition eq_equiv : Equivalence eq := eq_equivalence.
Definition lt := num_lt.
Definition le := num_le.

Lemma lt_strorder : StrictOrder lt.
Proof.
  split.
  - intros [| a |]; unfold complement, lt, num_lt; simpl; try discriminate.
    rewrite Z.ltb_irrefl. discriminate.
  - intros [| a |] [| b |] [| c |]; unfold lt, num_lt; simpl;
      rewrite ?Z.ltb_lt; intros; try lia; congruence.
Qed.

Lemma lt_compat : Proper (eq ==> eq ==> iff) lt.
Proof. intros x x' -> y y' ->. reflexivity. Qed.

Lemma le_lteq : forall x y, le x y <-> lt x y \/ eq x y.
Proof.
  intros [| a |] [| b |]; unfold le, lt, eq, num_le, num_lt; simpl;
    rewrite ?Z.ltb_lt, ?Z.ltb_ge; split; intros H; try tauto; try lia;
    try (destruct H; congruence).
  - assert (a < b \/ a = b) as [|] by lia; [left | right]; congruence.
  - destruct H as [H | H]; [lia | inversion H; lia].
Qed.

Lemma lt_total : forall x y, lt x y \/ eq x y \/ lt y x.
Proof.
  intros [| a |] [| b |]; unfold lt, eq, num_lt; simpl; rewrite ?Z.ltb_lt; auto.
  destruct (Z.lt_total a b) as [H | [H | H]]; auto. subst; auto.
Qed.
End NumberOrder.

Module NumberOrderTac := MakeOrderTac NumberOrder NumberOrder.

Ltac num_unfold :=
  unfold num_max, num_min, num_gtb, num_geb, num_leb in *.

Ltac num_order :=
  num_unfold;
  repeat match goal with
         | H : num_ltb _ _ = true |- _ =>
             change (num_ltb ?a ?b = true) with (NumberOrder.lt a b) in H
         | H : num_ltb _ _ = false |- _ =>
             change (num_ltb ?a ?b = false) with (NumberOrder.le b a) in H
         end;
  change num_lt with NumberOrder.lt in *;
  change num_le with NumberOrder.le in *;
  try match goal with
      | |- num_ltb ?a ?b = true => change (NumberOrder.lt a b)
      | |- num_ltb ?a ?b = false => change (NumberOrder.le b a)
      end;
  NumberOrderTac.order.

(** ** The transition engine *)

Lemma is_terminal_true (s : GameState) :
  is_terminal s = true <-> 1200 <= current_number s.
Proof. unfold is_terminal. rewrite Z.geb_le. tauto. Qed.

Lemma is_terminal_false (s : GameState) :
  is_terminal s = false <-> current_number s < 1200.
Proof.
  unfold is_terminal. destruct (Z.geb_spec (current_number s) 1200); split;
    intros; try lia; congruence.
Qed.

Lemma get_successors_nonterminal (s : GameState) :
  is_terminal s = false ->
  get_successors s =
    [(2, successor s 2); (3, successor s 3); (4, successor s 4)].
Proof. intros H. unfold get_successors. now rewrite H. Qed.

Lemma get_successors_terminal (s : GameState) :
  is_terminal s = true -> get_successors s = [].
Proof. intros H. unfold get_successors. now rewrite H. Qed.

Lemma In_get_successors (s : GameState) (m : Z) (c : GameState) :
  In (m, c) (get_successors s) <->
  is_terminal s = false /\ (m = 2 \/ m = 3 \/ m = 4) /\ c = successor s m.
Proof.
  unfold get_successors. destruct (is_terminal s); simpl.
  - split; [tauto | intros [H _]; discriminate].
  - split.
    + intros [H | [H | [H | []]]]; inversion H; subst; auto 6.
    + intros [_ [[-> | [-> | ->]] ->]]; auto.
Qed.

Lemma successor_current_number (s : GameState) (m : Z) :
  current_number (successor s m) = current_number s * m.
Proof.
  unfold successor, copy. simpl.
  repeat match goal with |- context [if ?b then _ else _] => destruct b end;
    reflexivity.
Qed.

Lemma mod2_even (n : Z) : (n mod 2 =? 0) = Z.even n.
Proof.
  rewrite Zmod_even. destruct (Z.even n); reflexivity.
Qed.

Lemma successor_parity_rule (s : GameState) (m : Z) :
  parity_rule s (successor s m) /\ score_movement s (successor s m) = 1.
Proof.
  unfold parity_rule, score_movement. rewrite successor_current_number.
  unfold successor, copy. simpl. rewrite mod2_even.
  destruct s as [n h c p]; simpl.
  destruct (Z.even (n * m)), p, (n * m <? 1200); simpl; split; lia.
Qed.

Lemma successor_turn_rule (s : GameState) (m : Z) :
  turn_rule s (successor s m).
Proof.
  unfold turn_rule. rewrite successor_current_number.
  unfold successor, copy. simpl.
  destruct s as [n h c p]; simpl.
  destruct (Z.ltb_spec (n * m) 1200), (n * m mod 2 =? 0), p; simpl;
    split; intros; try reflexivity; lia.
Qed.

(** The move applied by the window is the transition the search explores. *)
Lemma apply_move_state (g : GameGUI.t) (m : Z) :
  GameGUI.state (GameGUI.apply_move g m) = successor (GameGUI.state g) m.
Proof.
  unfold GameGUI.apply_move, successor, copy.
  destruct g as [[n h c p] go alg lbl]; simpl.
  destruct (Z.ltb_spec (n * m) 1200), (Z.geb_spec (n * m) 1200); try lia;
    destruct (n * m mod 2 =? 0), p; reflexivity.
Qed.

Lemma apply_move_game_over (g : GameGUI.t) (m : Z) :
  GameGUI.game_over (GameGUI.apply_move g m) =
  if current_number (GameGUI.state g) * m >=? 1200 then true
  else GameGUI.game_over g.
Proof.
  unfold GameGUI.apply_move.
  destruct g as [[n h c p] go alg lbl]; simpl.
  destruct (n * m >=? 1200), (n * m mod 2 =? 0), p; reflexivity.
Qed.

(** C2: [get_successors] returns, for a state with [current_number < 1200],
    exactly three pairs, for the multipliers 2, 3 and 4 in this order, the
    successor for [m] carrying [current_number * m]; for a state with
    [current_number >= 1200] it returns the empty list. *)
Theorem get_successors_three_or_none (s : GameState) :
  (current_number s < 1200 ->
     exists c2 c3 c4,
       get_successors s = [(2, c2); (3, c3); (4, c4)]
       /\ current_number c2 = current_number s * 2
       /\ current_number c3 = current_number s * 3
       /\ current_number c4 = current_number s * 4)
  /\ (1200 <= current_number s -> get_successors s = []).
Proof.
  split; intros H.
  - apply is_terminal_false in H.
    exists (successor s 2), (successor s 3), (successor s 4).
    rewrite (get_successors_nonterminal s H).
    repeat split; apply successor_current_number.
  - apply get_successors_terminal, is_terminal_true, H.
Qed.

Lemma get_successors_three_or_none_witness :
  (exists c2 c3 c4,
     get_successors (mkGameState 8 0 0 HUMAN) = [(2, c2); (3, c3); (4, c4)]
     /\ current_number c2 = 16 /\ current_number c3 = 24
     /\ current_number c4 = 32)
  /\ get_successors (mkGameState 1200 0 (-1) HUMAN) = [].
Proof.
  split.
  - apply (proj1 (get_successors_three_or_none (mkGameState 8 0 0 HUMAN))).
    simpl. lia.
  - apply (proj2 (get_successors_three_or_none (mkGameState 1200 0 (-1) HUMAN))).
    simpl. lia.
Defined.

(** C3: in every transition, whether a successor listed by [get_successors]
    or a move applied by [apply_move], one scoring rule fires, chosen by the
    parity of the new number: when it is even the score of the mover's
    opponent drops by 1 and the mover's score stays; when it is odd the
    mover's score rises by 1 and the opponent's stays; the two scores move
    by 1 in total. *)
Theorem one_scoring_rule_per_transition :
  (forall s move child,
     In (move, child) (get_successors s) ->
     current_number child = current_number s * move
     /\ parity_rule s child /\ score_movement s child = 1)
  /\ (forall gui multiplier,
        let pre := GameGUI.state gui in
        let post := GameGUI.state (GameGUI.apply_move gui multiplier) in
        current_number post = current_number pre * multiplier
        /\ parity_rule pre post /\ score_movement pre post = 1).
Proof.
  split.
  - intros s m c H. apply In_get_successors in H as (_ & _ & ->).
    split; [apply successor_current_number | apply successor_parity_rule].
  - intros gui m pre post. subst pre post. rewrite apply_move_state.
    split; [apply successor_current_number | apply successor_parity_rule].
Qed.

Lemma one_scoring_rule_per_transition_witness :
  let s := mkGameState 8 0 0 HUMAN in
  let child := mkGameState 24 0 (-1) COMPUTER in
  In (3, child) (get_successors s)
  /\ current_number child = current_number s * 3
  /\ parity_rule s child /\ score_movement s child = 1.
Proof.
  intros s child.
  assert (H : In (3, child) (get_successors s)) by (simpl; auto).
  split; [exact H |].
  exact (proj1 one_scoring_rule_per_transition s 3 child H).
Defined.

Lemma evaluate_nonterminal (s : GameState) :
  is_terminal s = false -> evaluate s = computer_score s - human_score s.
Proof. unfold evaluate. intros ->. reflexivity. Qed.

Lemma evaluate_human_wins (s : GameState) :
  is_terminal s = true -> human_score s > computer_score s ->
  evaluate s = -999999.
Proof.
  unfold evaluate. intros -> H.
  destruct (Z.gtb_spec (human_score s) (computer_score s)); [reflexivity | lia].
Qed.

Lemma evaluate_computer_wins (s : GameState) :
  is_terminal s = true -> computer_score s > human_score s ->
  evaluate s = 999999.
Proof.
  unfold evaluate. intros -> H.
  destruct (Z.gtb_spec (human_score s) (computer_score s)); [lia |].
  destruct (Z.gtb_spec (computer_score s) (human_score s)); [reflexivity | lia].
Qed.

Lemma evaluate_tie (s : GameState) :
  is_terminal s = true -> human_score s = computer_score s -> evaluate s = 0.
Proof.
  unfold evaluate. intros -> H.
  destruct (Z.gtb_spec (human_score s) (computer_score s)); [lia |].
  destruct (Z.gtb_spec (computer_score s) (human_score s)); [lia | reflexivity].
Qed.

(** C5: [evaluate] on a terminal state is -999999 when the human leads,
    999999 when the computer leads and 0 on a tie; on a non-terminal state
    it is [computer_score - human_score]. *)
Theorem evaluate_spec (s : GameState) :
  (is_terminal s = true -> human_score s > computer_score s ->
     evaluate s = -999999)
  /\ (is_terminal s = true -> computer_score s > human_score s ->
        evaluate s = 999999)
  /\ (is_terminal s = true -> human_score s = computer_score s ->
        evaluate s = 0)
  /\ (is_terminal s = false ->
        evaluate s = computer_score s - human_score s).
Proof.
  split; [apply evaluate_human_wins |].
  split; [apply evaluate_computer_wins |].
  split; [apply evaluate_tie | apply evaluate_nonterminal].
Qed.

Lemma evaluate_spec_witness :
  evaluate (mkGameState 1200 1 0 HUMAN) = -999999
  /\ evaluate (mkGameState 1296 (-2) (-1) COMPUTER) = 999999
  /\ evaluate (mkGameState 2048 (-3) (-3) HUMAN) = 0
  /\ evaluate (mkGameState 24 0 (-1) COMPUTER) = -1.
Proof.
  split; [| split; [| split]].
  - apply (proj1 (evaluate_spec (mkGameState 1200 1 0 HUMAN)));
      [reflexivity | simpl; lia].
  - apply (proj1 (proj2 (evaluate_spec (mkGameState 1296 (-2) (-1) COMPUTER))));
      [reflexivity | simpl; lia].
  - apply (proj1 (proj2 (proj2 (evaluate_spec (mkGameState 2048 (-3) (-3) HUMAN)))));
      reflexivity.
  - apply (proj2 (proj2 (proj2 (evaluate_spec (mkGameState 24 0 (-1) COMPUTER)))));
      reflexivity.
Defined.

(** C6: in every transition (successor of [get_successors] or move applied
    by [apply_move]) the mover stays the current player when the new number
    is at least 1200, and the turn passes to the other player otherwise; from
    600 the move 2 gives 1200, a terminal state with the same current
    player. *)
Theorem turn_rule_per_transition :
  (forall s move child,
     In (move, child) (get_successors s) -> turn_rule s child)
  /\ (forall gui multiplier,
        turn_rule (GameGUI.state gui)
                  (GameGUI.state (GameGUI.apply_move gui multiplier)))
  /\ (forall h c p,
        let s := mkGameState 600 h c p in
        exists child,
          In (2, child) (get_successors s)
          /\ current_number child = 1200
          /\ is_terminal child = true
          /\ current_player child = p
          /\ forall go alg lbl,
               let gui' := GameGUI.apply_move (GameGUI.mk s go alg lbl) 2 in
               GameGUI.state gui' = child /\ GameGUI.game_over gui' = true).
Proof.
  split; [| split].
  - intros s m c H. apply In_get_successors in H as (_ & _ & ->).
    apply successor_turn_rule.
  - intros gui m. rewrite apply_move_state. apply successor_turn_rule.
  - intros h c p s. exists (successor s 2). subst s.
    split; [simpl; auto |].
    split; [apply successor_current_number |].
    split; [unfold is_terminal; now rewrite successor_current_number |].
    split; [destruct p; reflexivity |].
    intros go alg lbl gui'. subst gui'.
    split; [apply apply_move_state | reflexivity].
Qed.

Lemma turn_rule_per_transition_witness :
  In (2, mkGameState 16 0 (-1) COMPUTER) (get_successors (mkGameState 8 0 0 HUMAN))
  /\ turn_rule (mkGameState 8 0 0 HUMAN) (mkGameState 16 0 (-1) COMPUTER).
Proof.
  assert (H : In (2, mkGameState 16 0 (-1) COMPUTER)
                 (get_successors (mkGameState 8 0 0 HUMAN))) by (simpl; auto).
  split; [exact H |].
  exact (proj1 turn_rule_per_transition _ _ _ H).
Defined.

(** ** The loops of the two searches *)

Lemma pure_max_loop_ge (rec : GameState -> option search_result) :
  forall succs V Vm v vm,
    pure_max_loop rec succs V Vm = Some (v, vm) -> num_le V v.
Proof.
  induction succs as [| [move child] rest IH]; simpl; intros V Vm v vm H.
  - inversion H; subst. num_order.
  - destruct (rec child) as [[val m] |]; [| discriminate].
    unfold num_gtb in H. destruct (num_ltb V val) eqn:E.
    + apply IH in H. num_order.
    + apply IH in H. exact H.
Qed.

Lemma pure_min_loop_le (rec : GameState -> option search_result) :
  forall succs V Vm v vm,
    pure_min_loop rec succs V Vm = Some (v, vm) -> num_le v V.
Proof.
  induction succs as [| [move child] rest IH]; simpl; intros V Vm v vm H.
  - inversion H; subst. num_order.
  - destruct (rec child) as [[val m] |]; [| discriminate].
    destruct (num_ltb val V) eqn:E.
    + apply IH in H. num_order.
    + apply IH in H. exact H.
Qed.

Section FailSoftLoops.

Variable rec_mm : GameState -> option search_result.
Variable rec_ab : GameState -> number -> number -> option search_result.

Hypothesis rec_fail_soft :
  forall child a b val m,
    num_lt a b -> rec_mm child = Some (val, m) ->
    exists r m', rec_ab child a b = Some (r, m') /\ fail_soft a b val r.

Lemma pure_ab_max_loop_fail_soft :
  forall succs alpha beta best bm V Vm v vm,
    num_le V best -> num_le best alpha -> num_lt alpha beta ->
    pure_max_loop rec_mm succs V Vm = Some (v, vm) ->
    exists r rm,
      pure_ab_max_loop rec_ab succs alpha beta best bm = Some (r, rm)
      /\ fail_soft alpha beta v r.
Proof.
  induction succs as [| [move child] rest IH];
    intros alpha beta best bm V Vm v vm HV Hb Hab Hmm; simpl in *.
  - inversion Hmm; subst. exists best, bm. split; [reflexivity |].
    unfold fail_soft. repeat split; intros; num_order.
  - destruct (rec_mm child) as [[val m] |] eqn:Ec; [| discriminate].
    destruct (rec_fail_soft child alpha beta val m Hab Ec)
      as (r & m' & Er & Hlo & Hin & Hhi).
    rewrite Er. clear Er Ec.
    assert (Hge : num_le (if num_gtb val V then val else V) v).
    { destruct (num_gtb val V); eapply pure_max_loop_ge; exact Hmm. }
    num_unfold. unfold num_lt, num_le in *.
    destruct (num_ltb alpha val) eqn:E1; [destruct (num_ltb val beta) eqn:E2 |].
    + (* the child's value is inside the window *)
      assert (r = val) by (apply Hin; auto). subst r.
      assert (E3 : num_ltb V val = true) by num_order.
      assert (E4 : num_ltb best val = true) by num_order.
      rewrite E3 in Hmm, Hge. rewrite E4. rewrite E1, E2. simpl.
      destruct (IH val beta val (Some move) val (Some move) v vm) as (r & rm & Hr & Hfs);
        try assumption; try num_order.
      exists r, rm. split; [exact Hr |].
      destruct Hfs as (Hlo' & Hin' & Hhi').
      unfold fail_soft. repeat split; intros.
      * num_order.
      * num_order.
      * destruct (num_ltb val v) eqn:E5.
        -- apply Hin'; auto.
        -- destruct (Hlo' ltac:(auto)). num_order.
      * apply Hhi'; auto.
      * apply Hhi'; auto.
    + (* the child's value is at or above beta: cut-off *)
      destruct (Hhi ltac:(auto)) as [Hbr Hrv].
      assert (E4 : num_ltb best r = true) by num_order.
      rewrite E4.
      assert (E5 : num_ltb alpha r = true) by num_order.
      rewrite E5.
      assert (E6 : num_ltb r beta = false) by num_order.
      rewrite E6. simpl.
      exists r, (Some move). split; [reflexivity |].
      destruct (num_ltb V val) eqn:E3;
        (unfold fail_soft; repeat split; intros; num_order).
    + (* the child's value is at or below alpha *)
      destruct (Hlo ltac:(auto)) as [Hvr Hra].
      destruct (num_ltb best r) eqn:E4.
      * assert (E5 : num_ltb alpha r = false) by num_order. rewrite E5, Hab. simpl.
        destruct (num_ltb V val) eqn:E3;
          (eapply IH; [| | | exact Hmm]; num_order).
      * assert (E5 : num_ltb alpha best = false) by num_order. rewrite E5, Hab. simpl.
        destruct (num_ltb V val) eqn:E3;
          (eapply IH; [| | | exact Hmm]; num_order).
Qed.

Lemma pure_ab_min_loop_fail_soft :
  forall succs alpha beta best bm V Vm v vm,
    num_le best V -> num_le beta best -> num_lt alpha beta ->
    pure_min_loop rec_mm succs V Vm = Some (v, vm) ->
    exists r rm,
      pure_ab_min_loop rec_ab succs alpha beta best bm = Some (r, rm)
      /\ fail_soft alpha beta v r.
Proof.
  induction succs as [| [move child] rest IH];
    intros alpha beta best bm V Vm v vm HV Hb Hab Hmm; simpl in *.
  - inversion Hmm; subst. exists best, bm. split; [reflexivity |].
    unfold fail_soft. repeat split; intros; num_order.
  - destruct (rec_mm child) as [[val m] |] eqn:Ec; [| discriminate].
    destruct (rec_fail_soft child alpha beta val m Hab Ec)
      as (r & m' & Er & Hlo & Hin & Hhi).
    rewrite Er. clear Er Ec.
    assert (Hle : num_le v (if num_ltb val V then val else V)).
    { destruct (num_ltb val V); eapply pure_min_loop_le; exact Hmm. }
    num_unfold. unfold num_lt, num_le in *.
    destruct (num_ltb val beta) eqn:E1; [destruct (num_ltb alpha val) eqn:E2 |].
    + (* the child's value is inside the window *)
      assert (r = val) by (apply Hin; auto). subst r.
      assert (E3 : num_ltb val V = true) by num_order.
      assert (E4 : num_ltb val best = true) by num_order.
      rewrite E3 in Hmm, Hle. rewrite E4. rewrite E1, E2. simpl.
      destruct (IH alpha val val (Some move) val (Some move) v vm)
        as (r & rm & Hr & Hfs); try assumption; try num_order.
      exists r, rm. split; [exact Hr |].
      destruct Hfs as (Hlo' & Hin' & Hhi').
      unfold fail_soft. repeat split; intros.
      * apply Hlo'; auto.
      * apply Hlo'; auto.
      * destruct (num_ltb v val) eqn:E5.
        -- apply Hin'; auto.
        -- destruct (Hhi' ltac:(auto)). num_order.
      * num_order.
      * num_order.
    + (* the child's value is at or below alpha: cut-off *)
      destruct (Hlo ltac:(auto)) as [Hvr Hra].
      assert (E4 : num_ltb r best = true) by num_order.
      rewrite E4.
      assert (E5 : num_ltb r beta = true) by num_order.
      rewrite E5.
      assert (E6 : num_ltb alpha r = false) by num_order.
      rewrite E6. simpl.
      exists r, (Some move). split; [reflexivity |].
      destruct (num_ltb val V) eqn:E3;
        (unfold fail_soft; repeat split; intros; num_order).
    + (* the child's value is at or above beta *)
      destruct (Hhi ltac:(auto)) as [Hbr Hrv].
      destruct (num_ltb r best) eqn:E4.
      * assert (E5 : num_ltb r beta = false) by num_order. rewrite E5, Hab. simpl.
        destruct (num_ltb val V) eqn:E3;
          (eapply IH; [| | | exact Hmm]; num_order).
      * assert (E5 : num_ltb best beta = false) by num_order. rewrite E5, Hab. simpl.
        destruct (num_ltb val V) eqn:E3;
          (eapply IH; [| | | exact Hmm]; num_order).
Qed.

End FailSoftLoops.

Lemma num_le_NegInf (x : number) : num_le NegInf x.
Proof. destruct x; reflexivity. Qed.

Lemma num_le_PosInf (x : number) : num_le x PosInf.
Proof. destruct x; reflexivity. Qed.

Lemma fail_soft_refl (alpha beta v : number) : fail_soft alpha beta v v.
Proof. unfold fail_soft. repeat split; intros; num_order. Qed.

(** With any window [alpha < beta], alpha-beta returns a value wherever
    minimax does, and the value is exact inside the window and a bound on
    the right side outside of it. *)
Lemma alpha_beta_pure_fail_soft :
  forall fuel s depth alpha beta flag val m,
    num_lt alpha beta ->
    minimax_pure fuel s depth flag = Some (val, m) ->
    exists r m',
      alpha_beta_pure fuel s depth alpha beta flag = Some (r, m')
      /\ fail_soft alpha beta val r.
Proof.
  induction fuel as [| fuel IH]; intros s depth alpha beta flag val m Hab H;
    simpl in *; [discriminate |].
  destruct ((depth =? 0) || is_terminal s).
  - inversion H; subst. eexists _, _. split; [reflexivity | apply fail_soft_refl].
  - destruct flag.
    + eapply pure_ab_max_loop_fail_soft; try eassumption.
      * intros child a b v' m' Hlt Hc. eapply IH; eassumption.
      * apply num_le_NegInf.
      * apply num_le_NegInf.
    + eapply pure_ab_min_loop_fail_soft; try eassumption.
      * intros child a b v' m' Hlt Hc. eapply IH; eassumption.
      * apply num_le_PosInf.
      * apply num_le_PosInf.
Qed.

(** ** Values are integers *)

Section IntLoops.

Variable rec : GameState -> option search_result.

Hypothesis rec_int :
  forall child val m, rec child = Some (val, m) -> exists z, val = Int z.

Lemma pure_max_loop_int :
  forall succs V Vm v vm,
    pure_max_loop rec succs V Vm = Some (v, vm) ->
    (v = V /\ vm = Vm) \/ exists z, v = Int z.
Proof.
  induction succs as [| [move child] rest IH]; simpl; intros V Vm v vm H.
  - inversion H; auto.
  - destruct (rec child) as [[val m] |] eqn:Ec; [| discriminate].
    destruct (rec_int _ _ _ Ec) as [z ->].
    destruct (num_gtb (Int z) V).
    + apply IH in H as [[-> _] | H]; eauto.
    + apply IH in H; exact H.
Qed.

Lemma pure_min_loop_int :
  forall succs V Vm v vm,
    pure_min_loop rec succs V Vm = Some (v, vm) ->
    (v = V /\ vm = Vm) \/ exists z, v = Int z.
Proof.
  induction succs as [| [move child] rest IH]; simpl; intros V Vm v vm H.
  - inversion H; auto.
  - destruct (rec child) as [[val m] |] eqn:Ec; [| discriminate].
    destruct (rec_int _ _ _ Ec) as [z ->].
    destruct (num_ltb (Int z) V).
    + apply IH in H as [[-> _] | H]; eauto.
    + apply IH in H; exact H.
Qed.

End IntLoops.

Lemma base_case_false (depth : Z) (s : GameState) :
  (depth =? 0) || is_terminal s = false ->
  depth <> 0 /\ is_terminal s = false.
Proof.
  intros H. apply orb_false_iff in H as [H1 H2].
  apply Z.eqb_neq in H1. auto.
Qed.

Lemma pure_max_loop_cons (rec : GameState -> option search_result)
    move child rest V Vm :
  pure_max_loop rec ((move, child) :: rest) V Vm =
  match rec child with
  | None => None
  | Some (val, _) =>
      if num_gtb val V then pure_max_loop rec rest val (Some move)
      else pure_max_loop rec rest V Vm
  end.
Proof. reflexivity. Qed.

Lemma pure_min_loop_cons (rec : GameState -> option search_result)
    move child rest V Vm :
  pure_min_loop rec ((move, child) :: rest) V Vm =
  match rec child with
  | None => None
  | Some (val, _) =>
      if num_ltb val V then pure_min_loop rec rest val (Some move)
      else pure_min_loop rec rest V Vm
  end.
Proof. reflexivity. Qed.

Lemma minimax_pure_int :
  forall fuel s depth flag val m,
    minimax_pure fuel s depth flag = Some (val, m) -> exists z, val = Int z.
Proof.
  induction fuel as [| fuel IH]; intros s depth flag val m H; simpl in H;
    [discriminate |].
  destruct ((depth =? 0) || is_terminal s) eqn:Eb.
  - inversion H; eauto.
  - apply base_case_false in Eb as [_ Ht].
    rewrite (get_successors_nonterminal s Ht) in H.
    destruct flag;
      [rewrite pure_max_loop_cons in H | rewrite pure_min_loop_cons in H];
      destruct (minimax_pure fuel (successor s 2) (depth - 1) _)
        as [[v2 m2] |] eqn:E2; try discriminate;
      destruct (IH _ _ _ _ _ E2) as [z2 ->]; cbn [num_gtb num_ltb] in H.
    + apply pure_max_loop_int in H as [[-> _] | H]; eauto.
    + apply pure_min_loop_int in H as [[-> _] | H]; eauto.
Qed.

(** ** Calls without a value *)

Lemma pure_max_loop_None (rec : GameState -> option search_result) :
  forall succs V Vm,
    pure_max_loop rec succs V Vm = None ->
    exists move child, In (move, child) succs /\ rec child = None.
Proof.
  induction succs as [| [move child] rest IH]; simpl; intros V Vm H;
    [discriminate |].
  destruct (rec child) as [[val m] |] eqn:Ec.
  - destruct (num_gtb val V); apply IH in H as (m' & c' & Hin & Hc); eauto.
  - eauto.
Qed.

Lemma pure_min_loop_None (rec : GameState -> option search_result) :
  forall succs V Vm,
    pure_min_loop rec succs V Vm = None ->
    exists move child, In (move, child) succs /\ rec child = None.
Proof.
  induction succs as [| [move child] rest IH]; simpl; intros V Vm H;
    [discriminate |].
  destruct (rec child) as [[val m] |] eqn:Ec.
  - destruct (num_ltb val V); apply IH in H as (m' & c' & Hin & Hc); eauto.
  - eauto.
Qed.

Lemma minimax_pure_None_child (fuel : nat) (s : GameState) (depth : Z)
    (flag : bool) :
  (depth =? 0) || is_terminal s = false ->
  minimax_pure (S fuel) s depth flag = None ->
  exists move child fl,
    In (move, child) (get_successors s)
    /\ minimax_pure fuel child (depth - 1) fl = None.
Proof.
  intros Eb H. simpl in H. rewrite Eb in H. destruct flag.
  - apply pure_max_loop_None in H as (move & child & Hin & Hc); eauto.
  - apply pure_min_loop_None in H as (move & child & Hin & Hc); eauto.
Qed.

(** A search that runs out of fuel on a state also runs out of fuel on
    every state with a smaller number, and on every state whose number is
    not positive. *)
Lemma minimax_pure_None_smaller :
  forall fuel s s' depth flag flag',
    minimax_pure fuel s depth flag = None ->
    current_number s' <= current_number s \/ current_number s' <= 0 ->
    minimax_pure fuel s' depth flag' = None.
Proof.
  induction fuel as [| fuel IH]; intros s s' depth flag flag' H Hn;
    [reflexivity |].
  destruct ((depth =? 0) || is_terminal s) eqn:Eb;
    [simpl in H; rewrite Eb in H; discriminate |].
  pose proof Eb as Eb'.
  apply base_case_false in Eb' as [Hd Ht].
  apply minimax_pure_None_child in H as (move & child & fl0 & Hin & Hc);
    [| exact Eb].
  apply In_get_successors in Hin as (_ & Hm & ->).
  apply is_terminal_false in Ht.
  assert (Ht' : is_terminal s' = false) by (apply is_terminal_false; lia).
  assert (H2 : forall fl, minimax_pure fuel (successor s' 2) (depth - 1) fl = None).
  { intros fl. eapply IH; [exact Hc |].
    rewrite !successor_current_number. lia. }
  simpl. apply Z.eqb_neq in Hd. rewrite Hd, Ht'. simpl.
  rewrite (get_successors_nonterminal s' Ht').
  destruct flag'; simpl; rewrite H2; reflexivity.
Qed.

Lemma alpha_beta_pure_None :
  forall fuel s depth alpha beta flag,
    minimax_pure fuel s depth flag = None ->
    alpha_beta_pure fuel s depth alpha beta flag = None.
Proof.
  induction fuel as [| fuel IH]; intros s depth alpha beta flag H;
    [reflexivity |].
  destruct ((depth =? 0) || is_terminal s) eqn:Eb;
    [simpl in H; rewrite Eb in H; discriminate |].
  pose proof Eb as Eb'.
  apply base_case_false in Eb' as [Hd Ht].
  apply minimax_pure_None_child in H as (move & child & fl0 & Hin & Hc);
    [| exact Eb].
  apply In_get_successors in Hin as (_ & Hm & ->).
  simpl. rewrite Eb.
  assert (H2 : forall fl, minimax_pure fuel (successor s 2) (depth - 1) fl = None).
  { intros fl. eapply minimax_pure_None_smaller; [exact Hc |].
    rewrite !successor_current_number. lia. }
  rewrite (get_successors_nonterminal s Ht).
  destruct flag; simpl; rewrite (IH _ _ _ _ _ (H2 _)); reflexivity.
Qed.

(** ** The root call: full window *)

Section RootLoops.

Variable rec_mm : GameState -> option search_result.
Variable rec_ab : GameState -> number -> number -> option search_result.

Hypothesis rec_fail_soft :
  forall child a b val m,
    num_lt a b -> rec_mm child = Some (val, m) ->
    exists r m', rec_ab child a b = Some (r, m') /\ fail_soft a b val r.

Hypothesis rec_None :
  forall child a b, rec_mm child = None -> rec_ab child a b = None.

Hypothesis rec_int :
  forall child val m, rec_mm child = Some (val, m) -> exists z, val = Int z.

(** With [beta] infinite the maximizing loop never cuts off, [alpha] follows
    [best_value], and each child either returns its exact value or a value
    that does not beat [best_value], as in minimax. *)
Lemma pure_ab_max_loop_root :
  forall succs V Vm,
    num_lt V PosInf ->
    pure_ab_max_loop rec_ab succs V PosInf V Vm = pure_max_loop rec_mm succs V Vm.
Proof.
  induction succs as [| [move child] rest IH]; intros V Vm HV; simpl;
    [reflexivity |].
  destruct (rec_mm child) as [[val m] |] eqn:Ec.
  - destruct (rec_int _ _ _ Ec) as [z ->].
    destruct (rec_fail_soft child V PosInf (Int z) m HV Ec)
      as (r & m' & Er & Hlo & Hin & _).
    rewrite Er. num_unfold. unfold num_lt, num_le in *.
    destruct (num_ltb V (Int z)) eqn:E1.
    + assert (r = Int z) by (apply Hin; auto). subst r.
      rewrite E1. rewrite E1. simpl. apply IH. reflexivity.
    + destruct (Hlo ltac:(auto)) as [_ Hr]. rewrite Hr.
      assert (E2 : num_ltb V V = false) by num_order.
      rewrite E2, HV. simpl. apply IH. exact HV.
  - rewrite (rec_None _ _ _ Ec). reflexivity.
Qed.

Lemma pure_ab_min_loop_root :
  forall succs V Vm,
    num_lt NegInf V ->
    pure_ab_min_loop rec_ab succs NegInf V V Vm = pure_min_loop rec_mm succs V Vm.
Proof.
  induction succs as [| [move child] rest IH]; intros V Vm HV; simpl;
    [reflexivity |].
  destruct (rec_mm child) as [[val m] |] eqn:Ec.
  - destruct (rec_int _ _ _ Ec) as [z ->].
    destruct (rec_fail_soft child NegInf V (Int z) m HV Ec)
      as (r & m' & Er & _ & Hin & Hhi).
    rewrite Er. num_unfold. unfold num_lt, num_le in *.
    destruct (num_ltb (Int z) V) eqn:E1.
    + assert (r = Int z) by (apply Hin; auto). subst r.
      rewrite E1. rewrite E1. simpl. apply IH. reflexivity.
    + destruct (Hhi ltac:(auto)) as [Hr _]. rewrite Hr.
      assert (E2 : num_ltb V V = false) by num_order.
      rewrite E2, HV. simpl. apply IH. exact HV.
  - rewrite (rec_None _ _ _ Ec). reflexivity.
Qed.

End RootLoops.

Lemma alpha_beta_pure_full_window :
  forall fuel s depth flag,
    alpha_beta_pure fuel s depth NegInf PosInf flag = minimax_pure fuel s depth flag.
Proof.
  intros [| fuel] s depth flag; [reflexivity |]. simpl.
  destruct ((depth =? 0) || is_terminal s); [reflexivity |].
  destruct flag.
  - apply pure_ab_max_loop_root.
    + intros; eapply alpha_beta_pure_fail_soft; eassumption.
    + intros; apply alpha_beta_pure_None; assumption.
    + intros; eapply minimax_pure_int; eassumption.
    + reflexivity.
  - apply pure_ab_min_loop_root.
    + intros; eapply alpha_beta_pure_fail_soft; eassumption.
    + intros; apply alpha_beta_pure_None; assumption.
    + intros; eapply minimax_pure_int; eassumption.
    + reflexivity.
Qed.

(** ** The counter does not influence the search *)

Lemma result_Some {A} (r : option (A * Z)) (a : A) :
  result r = Some a -> exists n, r = Some (a, n).
Proof. destruct r as [[a' n] |]; simpl; intros H; inversion H; eauto. Qed.

Lemma result_None {A} (r : option (A * Z)) : result r = None -> r = None.
Proof. destruct r as [[a' n] |]; simpl; intros H; [discriminate | reflexivity]. Qed.

Section EraseLoops.

Variable rec : GameState -> M search_result.
Variable rec_pure : GameState -> option search_result.

Hypothesis rec_erase : forall child c, result (rec child c) = rec_pure child.

Lemma minimax_max_loop_erase :
  forall succs V Vm c,
    result (minimax_max_loop rec succs V Vm c) = pure_max_loop rec_pure succs V Vm.
Proof.
  induction succs as [| [move child] rest IH]; intros V Vm c; simpl;
    [reflexivity |].
  unfold bind. rewrite <- (rec_erase child c).
  destruct (rec child c) as [[[val m] c'] |]; simpl; [| reflexivity].
  destruct (num_gtb val V); apply IH.
Qed.

Lemma minimax_min_loop_erase :
  forall succs V Vm c,
    result (minimax_min_loop rec succs V Vm c) = pure_min_loop rec_pure succs V Vm.
Proof.
  induction succs as [| [move child] rest IH]; intros V Vm c; simpl;
    [reflexivity |].
  unfold bind. rewrite <- (rec_erase child c).
  destruct (rec child c) as [[[val m] c'] |]; simpl; [| reflexivity].
  destruct (num_ltb val V); apply IH.
Qed.

End EraseLoops.

Section EraseAlphaBetaLoops.

Variable rec : GameState -> number -> number -> M search_result.
Variable rec_pure : GameState -> number -> number -> option search_result.

Hypothesis rec_erase :
  forall child a b c, result (rec child a b c) = rec_pure child a b.

Lemma alpha_beta_max_loop_erase :
  forall succs alpha beta best bm c,
    result (alpha_beta_max_loop rec succs alpha beta best bm c) =
    pure_ab_max_loop rec_pure succs alpha beta best bm.
Proof.
  induction succs as [| [move child] rest IH]; intros alpha beta best bm c;
    simpl; [reflexivity |].
  unfold bind. rewrite <- (rec_erase child alpha beta c).
  destruct (rec child alpha beta c) as [[[val m] c'] |]; simpl; [| reflexivity].
  destruct (num_gtb val best);
    match goal with |- context [num_geb ?x ?y] => destruct (num_geb x y) end;
    (reflexivity || apply IH).
Qed.

Lemma alpha_beta_min_loop_erase :
  forall succs alpha beta best bm c,
    result (alpha_beta_min_loop rec succs alpha beta best bm c) =
    pure_ab_min_loop rec_pure succs alpha beta best bm.
Proof.
  induction succs as [| [move child] rest IH]; intros alpha beta best bm c;
    simpl; [reflexivity |].
  unfold bind. rewrite <- (rec_erase child alpha beta c).
  destruct (rec child alpha beta c) as [[[val m] c'] |]; simpl; [| reflexivity].
  destruct (num_ltb val best);
    match goal with |- context [num_leb ?x ?y] => destruct (num_leb x y) end;
    (reflexivity || apply IH).
Qed.

End EraseAlphaBetaLoops.

Lemma minimax_erase :
  forall fuel s depth flag c,
    result (minimax fuel s depth flag c) = minimax_pure fuel s depth flag.
Proof.
  induction fuel as [| fuel IH]; intros s depth flag c; [reflexivity |].
  simpl. unfold bind, tick.
  destruct ((depth =? 0) || is_terminal s); [reflexivity |].
  destruct flag.
  - apply minimax_max_loop_erase. intros child c'. apply IH.
  - apply minimax_min_loop_erase. intros child c'. apply IH.
Qed.

Lemma alpha_beta_erase :
  forall fuel s depth alpha beta flag c,
    result (alpha_beta fuel s depth alpha beta flag c) =
    alpha_beta_pure fuel s depth alpha beta flag.
Proof.
  induction fuel as [| fuel IH]; intros s depth alpha beta flag c;
    [reflexivity |].
  simpl. unfold bind, tick.
  destruct ((depth =? 0) || is_terminal s); [reflexivity |].
  destruct flag.
  - apply alpha_beta_max_loop_erase. intros child a b c'. apply IH.
  - apply alpha_beta_min_loop_erase. intros child a b c'. apply IH.
Qed.

(** ** Enough fuel *)

Lemma fuel_suffices_not_0 (s : GameState) (depth : Z) :
  ~ fuel_suffices 0 s depth.
Proof. unfold fuel_suffices. simpl. intros [H | (_ & _ & H)]; [lia | congruence]. Qed.

Lemma fuel_suffices_successor (fuel : nat) (s : GameState) (depth m : Z) :
  fuel_suffices (S fuel) s depth ->
  depth <> 0 -> is_terminal s = false ->
  m = 2 \/ m = 3 \/ m = 4 ->
  fuel_suffices fuel (successor s m) (depth - 1).
Proof.
  unfold fuel_suffices. intros H Hd Ht Hm. apply is_terminal_false in Ht.
  rewrite successor_current_number.
  destruct H as [H | (Hpos & Hpow & _)]; [left; lia | right].
  replace (Z.of_nat (S fuel) - 1) with (Z.of_nat fuel) in Hpow by lia.
  destruct fuel as [| fuel]; [simpl in Hpow; lia |].
  replace (Z.of_nat (S fuel)) with (Z.succ (Z.of_nat (S fuel) - 1)) in Hpow by lia.
  rewrite Z.pow_succ_r in Hpow by lia.
  set (P := 2 ^ (Z.of_nat (S fuel) - 1)) in *.
  assert (HP : 0 < P) by (apply Z.pow_pos_nonneg; lia).
  repeat split; [nia | nia | discriminate].
Qed.

Lemma fuel_suffices_depth (fuel : nat) (s : GameState) (depth : Z) :
  0 <= depth -> (Z.to_nat depth < fuel)%nat -> fuel_suffices fuel s depth.
Proof. intros H1 H2. left. lia. Qed.

Lemma fuel_suffices_positive (fuel : nat) (s : GameState) (depth : Z) :
  0 < current_number s -> (12 <= fuel)%nat -> fuel_suffices fuel s depth.
Proof.
  intros H1 H2. right. repeat split; [exact H1 | | lia].
  assert (2 ^ 11 <= 2 ^ (Z.of_nat fuel - 1)) by (apply Z.pow_le_mono_r; lia).
  change (2 ^ 11) with 2048 in H. nia.
Qed.

Section ReturnLoops.

Variable rec : GameState -> option search_result.

Lemma pure_max_loop_returns :
  forall succs V Vm,
    (forall move child, In (move, child) succs -> exists r, rec child = Some r) ->
    exists r, pure_max_loop rec succs V Vm = Some r.
Proof.
  induction succs as [| [move child] rest IH]; intros V Vm H; simpl; eauto.
  destruct (H move child) as [[val m] ->]; [left; reflexivity |].
  destruct (num_gtb val V); apply IH; intros; eapply H; right; eassumption.
Qed.

Lemma pure_min_loop_returns :
  forall succs V Vm,
    (forall move child, In (move, child) succs -> exists r, rec child = Some r) ->
    exists r, pure_min_loop rec succs V Vm = Some r.
Proof.
  induction succs as [| [move child] rest IH]; intros V Vm H; simpl; eauto.
  destruct (H move child) as [[val m] ->]; [left; reflexivity |].
  destruct (num_ltb val V); apply IH; intros; eapply H; right; eassumption.
Qed.

End ReturnLoops.

Section ReturnAlphaBetaLoops.

Variable rec : GameState -> number -> number -> option search_result.

Lemma pure_ab_max_loop_returns :
  forall succs alpha beta best bm,
    (forall move child a b,
       In (move, child) succs -> exists r, rec child a b = Some r) ->
    exists r, pure_ab_max_loop rec succs alpha beta best bm = Some r.
Proof.
  induction succs as [| [move child] rest IH]; intros alpha beta best bm H;
    simpl; eauto.
  destruct (H move child alpha beta) as [[val m] ->]; [left; reflexivity |].
  destruct (num_gtb val best);
    match goal with |- context [num_geb ?x ?y] => destruct (num_geb x y) end;
    eauto; apply IH; intros; eapply H; right; eassumption.
Qed.

Lemma pure_ab_min_loop_returns :
  forall succs alpha beta best bm,
    (forall move child a b,
       In (move, child) succs -> exists r, rec child a b = Some r) ->
    exists r, pure_ab_min_loop rec succs alpha beta best bm = Some r.
Proof.
  induction succs as [| [move child] rest IH]; intros alpha beta best bm H;
    simpl; eauto.
  destruct (H move child alpha beta) as [[val m] ->]; [left; reflexivity |].
  destruct (num_ltb val best);
    match goal with |- context [num_leb ?x ?y] => destruct (num_leb x y) end;
    eauto; apply IH; intros; eapply H; right; eassumption.
Qed.

End ReturnAlphaBetaLoops.

Lemma minimax_pure_returns :
  forall fuel s depth flag,
    fuel_suffices fuel s depth ->
    exists r, minimax_pure fuel s depth flag = Some r.
Proof.
  induction fuel as [| fuel IH]; intros s depth flag H;
    [destruct (fuel_suffices_not_0 _ _ H) |].
  simpl. destruct ((depth =? 0) || is_terminal s) eqn:Eb; eauto.
  apply base_case_false in Eb as [Hd Ht].
  destruct flag;
    [apply pure_max_loop_returns | apply pure_min_loop_returns];
    intros move child Hin; apply In_get_successors in Hin as (_ & Hm & ->);
    apply IH; apply fuel_suffices_successor; assumption.
Qed.

Lemma alpha_beta_pure_returns :
  forall fuel s depth alpha beta flag,
    fuel_suffices fuel s depth ->
    exists r, alpha_beta_pure fuel s depth alpha beta flag = Some r.
Proof.
  induction fuel as [| fuel IH]; intros s depth alpha beta flag H;
    [destruct (fuel_suffices_not_0 _ _ H) |].
  simpl. destruct ((depth =? 0) || is_terminal s) eqn:Eb; eauto.
  apply base_case_false in Eb as [Hd Ht].
  destruct flag;
    [apply pure_ab_max_loop_returns | apply pure_ab_min_loop_returns];
    intros move child a b Hin; apply In_get_successors in Hin as (_ & Hm & ->);
    apply IH; apply fuel_suffices_successor; assumption.
Qed.

(** ** The searches on concrete positions *)

(** From 8 with the computer to move and depth 1 the three children (16, 24
    and 32) are even, each costs the human a point and evaluates to 1; the
    first move wins the tie and four nodes are visited. *)
Example minimax_from_8_depth_1 :
  minimax 2 (mkGameState 8 0 0 COMPUTER) 1 true 0 = Some ((Int 1, Some 2), 4).
Proof. reflexivity. Qed.

(** From 9 the move 3 gives the odd number 27 and a point to the mover. *)
Example minimax_from_9_depth_1 :
  minimax 2 (mkGameState 9 0 0 COMPUTER) 1 true 0 = Some ((Int 1, Some 2), 4)
  /\ successor (mkGameState 9 0 0 COMPUTER) 3 = mkGameState 27 0 1 HUMAN.
Proof. split; reflexivity. Qed.

(** Depth 2 from 300: the move 4 ends the game with the computer ahead;
    alpha-beta returns what minimax returns and cuts off below 900, visiting
    8 nodes instead of 10. *)
Example searches_from_300_depth_2 :
  minimax 3 (mkGameState 300 0 0 COMPUTER) 2 true 0
  = Some ((Int 999999, Some 4), 10)
  /\ alpha_beta 3 (mkGameState 300 0 0 COMPUTER) 2 NegInf PosInf true 0
     = Some ((Int 999999, Some 4), 8).
Proof. split; reflexivity. Qed.

(** The calls counted for the same two searches: the whole tree of 10
    nodes, and the 8 invocations alpha-beta makes. *)
Example calls_from_300_depth_2 :
  search_calls 3 (mkGameState 300 0 0 COMPUTER) "Minimax" 2 = Some 10
  /\ search_calls 3 (mkGameState 300 0 0 COMPUTER) "Alpha-Beta" 2 = Some 8.
Proof. split; reflexivity. Qed.

(** Depth 0 evaluates the state itself; a search without a depth bound from
    the number 0 never returns. *)
Example minimax_depth_0 :
  minimax 1 (mkGameState 8 2 5 HUMAN) 0 false 7 = Some ((Int 3, None), 8).
Proof. reflexivity. Qed.

Example minimax_from_0_no_depth_bound :
  minimax 20 (mkGameState 0 0 0 COMPUTER) (-1) true 0 = None.
Proof. reflexivity. Qed.

(** ** Alpha-beta and minimax agree *)

(** C1: called with the full window ([alpha] minus infinity, [beta] plus
    infinity), [alpha_beta] returns the same score and the same move as
    [minimax] on the same state, depth and maximizing flag, whatever the
    node counter is; and with enough fuel both do return an integer
    score. *)
Theorem alpha_beta_full_window_is_minimax :
  forall fuel s depth flag c c',
    result (alpha_beta fuel s depth NegInf PosInf flag c) =
    result (minimax fuel s depth flag c')
    /\ (fuel_suffices fuel s depth ->
        exists score move,
          result (minimax fuel s depth flag c') = Some (Int score, move)
          /\ result (alpha_beta fuel s depth NegInf PosInf flag c) =
             Some (Int score, move)).
Proof.
  intros fuel s depth flag c c'.
  rewrite alpha_beta_erase, minimax_erase, alpha_beta_pure_full_window.
  split; [reflexivity |]. intros H.
  destruct (minimax_pure_returns fuel s depth flag H) as [[val m] Hr].
  destruct (minimax_pure_int _ _ _ _ _ _ Hr) as [z ->].
  exists z, m. split; exact Hr.
Qed.

Lemma alpha_beta_full_window_is_minimax_witness :
  fuel_suffices 11 (mkGameState 8 0 0 COMPUTER) 10
  /\ exists score move,
       result (minimax 11 (mkGameState 8 0 0 COMPUTER) 10 true 0) =
       Some (Int score, move)
       /\ result (alpha_beta 11 (mkGameState 8 0 0 COMPUTER) 10 NegInf PosInf true 0) =
          Some (Int score, move).
Proof.
  assert (H : fuel_suffices 11 (mkGameState 8 0 0 COMPUTER) 10)
    by (left; simpl; lia).
  split; [exact H |].
  exact (proj2 (alpha_beta_full_window_is_minimax
                  11 (mkGameState 8 0 0 COMPUTER) 10 true 0 0) H).
Defined.

(** ** The contract of minimax *)

Lemma minimax_pure_first_best :
  forall fuel s depth flag v2 v3 v4 m2 m3 m4,
    depth <> 0 -> is_terminal s = false ->
    minimax_pure fuel (successor s 2) (depth - 1) (negb flag) = Some (Int v2, m2) ->
    minimax_pure fuel (successor s 3) (depth - 1) (negb flag) = Some (Int v3, m3) ->
    minimax_pure fuel (successor s 4) (depth - 1) (negb flag) = Some (Int v4, m4) ->
    exists move,
      minimax_pure (S fuel) s depth flag =
        Some (Int (value_of v2 v3 v4 move), Some move)
      /\ first_best flag v2 v3 v4 move.
Proof.
  intros fuel s depth flag v2 v3 v4 m2 m3 m4 Hd Ht H2 H3 H4.
  simpl. apply Z.eqb_neq in Hd. rewrite Hd, Ht. simpl.
  rewrite (get_successors_nonterminal s Ht).
  destruct flag; simpl negb in *;
    cbn [pure_max_loop pure_min_loop]; rewrite H2, H3, H4;
    cbn [num_gtb num_ltb];
    repeat match goal with
           | |- context [?a <? ?b] => destruct (Z.ltb_spec a b)
           end;
    match goal with
    | |- exists move, Some (_, Some ?m) = _ /\ _ => exists m
    end;
    (split; [reflexivity |]);
    unfold first_best, value_of; (split; [lia |]);
    intros m' [-> | [-> | ->]]; simpl; split; intros; lia.
Qed.

(** C4: [minimax] at depth 0 or on a terminal state returns the evaluation
    of the state and no move, visiting that one node only; otherwise the
    maximizing branch returns the greatest and the minimizing branch the
    smallest of the three successors' scores, with the first move that
    reaches it; and on a non-terminal state with depth at least 1 the move
    returned is 2, 3 or 4, never the no-move value. *)
Theorem minimax_contract :
  (forall fuel s depth flag c,
     depth = 0 \/ is_terminal s = true ->
     minimax (S fuel) s depth flag c = Some ((Int (evaluate s), None), c + 1))
  /\ (forall fuel s depth flag v2 v3 v4 m2 m3 m4 c2 c3 c4 c,
        depth <> 0 -> is_terminal s = false ->
        result (minimax fuel (successor s 2) (depth - 1) (negb flag) c2) =
          Some (Int v2, m2) ->
        result (minimax fuel (successor s 3) (depth - 1) (negb flag) c3) =
          Some (Int v3, m3) ->
        result (minimax fuel (successor s 4) (depth - 1) (negb flag) c4) =
          Some (Int v4, m4) ->
        exists move,
          result (minimax (S fuel) s depth flag c) =
            Some (Int (value_of v2 v3 v4 move), Some move)
          /\ first_best flag v2 v3 v4 move)
  /\ (forall fuel s depth flag c,
        1 <= depth -> is_terminal s = false -> fuel_suffices fuel s depth ->
        exists score move,
          result (minimax fuel s depth flag c) = Some (Int score, Some move)
          /\ (move = 2 \/ move = 3 \/ move = 4)).
Proof.
  split; [| split].
  - intros fuel s depth flag c H. simpl. unfold bind, tick.
    assert (E : (depth =? 0) || is_terminal s = true).
    { apply orb_true_iff. destruct H as [-> | H]; auto. }
    rewrite E. reflexivity.
  - intros fuel s depth flag v2 v3 v4 m2 m3 m4 c2 c3 c4 c Hd Ht H2 H3 H4.
    rewrite minimax_erase in *.
    eapply minimax_pure_first_best; eassumption.
  - intros fuel s depth flag c Hd Ht H.
    destruct fuel as [| fuel]; [destruct (fuel_suffices_not_0 _ _ H) |].
    assert (Hd' : depth <> 0) by lia.
    assert (Hc : forall m, m = 2 \/ m = 3 \/ m = 4 ->
                 exists z mv,
                   minimax_pure fuel (successor s m) (depth - 1) (negb flag)
                   = Some (Int z, mv)).
    { intros m Hm.
      destruct (minimax_pure_returns fuel (successor s m) (depth - 1) (negb flag))
        as [[val mv] Hr]; [apply fuel_suffices_successor; assumption |].
      destruct (minimax_pure_int _ _ _ _ _ _ Hr) as [z ->]. eauto. }
    destruct (Hc 2) as (v2 & m2 & H2); [auto |].
    destruct (Hc 3) as (v3 & m3 & H3); [auto |].
    destruct (Hc 4) as (v4 & m4 & H4); [auto |].
    destruct (minimax_pure_first_best fuel s depth flag _ _ _ _ _ _ Hd' Ht H2 H3 H4)
      as (move & Hr & Hm & _).
    rewrite minimax_erase. eauto.
Qed.

Lemma minimax_contract_witness :
  minimax 1 (mkGameState 8 0 0 COMPUTER) 0 true 0 = Some ((Int 0, None), 1)
  /\ exists score move,
       result (minimax 2 (mkGameState 9 0 0 COMPUTER) 1 true 0) =
         Some (Int score, Some move)
       /\ (move = 2 \/ move = 3 \/ move = 4).
Proof.
  split.
  - apply (proj1 minimax_contract 0%nat (mkGameState 8 0 0 COMPUTER) 0 true 0).
    left. reflexivity.
  - apply (proj2 (proj2 minimax_contract) 2%nat (mkGameState 9 0 0 COMPUTER) 1 true 0).
    + lia.
    + reflexivity.
    + left. simpl. lia.
Defined.

(** ** Monotonicity and termination *)

(** C7: from a state with a positive number every successor listed by
    [get_successors] has a strictly greater number, and both searches
    return a result at any depth (also a negative one, which never reaches
    the depth bound) and, for alpha-beta, with any window: twelve nested
    calls are enough. *)
Theorem number_increases_and_search_terminates (s : GameState) :
  0 < current_number s ->
  (forall move child,
     In (move, child) (get_successors s) ->
     current_number s < current_number child)
  /\ (forall fuel depth flag c,
        (12 <= fuel)%nat ->
        exists r c', minimax fuel s depth flag c = Some (r, c'))
  /\ (forall fuel depth alpha beta flag c,
        (12 <= fuel)%nat ->
        exists r c', alpha_beta fuel s depth alpha beta flag c = Some (r, c')).
Proof.
  intros Hpos. split; [| split].
  - intros move child Hin. apply In_get_successors in Hin as (_ & Hm & ->).
    rewrite successor_current_number. lia.
  - intros fuel depth flag c Hf.
    destruct (minimax_pure_returns fuel s depth flag) as [r Hr];
      [apply fuel_suffices_positive; assumption |].
    rewrite <- (minimax_erase fuel s depth flag c) in Hr.
    apply result_Some in Hr as [c' Hr]. eauto.
  - intros fuel depth alpha beta flag c Hf.
    destruct (alpha_beta_pure_returns fuel s depth alpha beta flag) as [r Hr];
      [apply fuel_suffices_positive; assumption |].
    rewrite <- (alpha_beta_erase fuel s depth alpha beta flag c) in Hr.
    apply result_Some in Hr as [c' Hr]. eauto.
Qed.

Lemma number_increases_and_search_terminates_witness :
  0 < current_number (mkGameState 8 0 0 HUMAN)
  /\ (forall move child,
        In (move, child) (get_successors (mkGameState 8 0 0 HUMAN)) ->
        8 < current_number child)
  /\ exists r c', minimax 12 (mkGameState 8 0 0 HUMAN) (-1) false 0 = Some (r, c').
Proof.
  assert (H : 0 < current_number (mkGameState 8 0 0 HUMAN)) by (simpl; lia).
  split; [exact H |]. split.
  - exact (proj1 (number_increases_and_search_terminates _ H)).
  - apply (proj1 (proj2 (number_increases_and_search_terminates _ H))). lia.
Defined.

(** ** Terminal dominance *)

(** The games played in the window stay within [reachable]. *)
Lemma start_game_reachable (initial_num : Z) (first_player algorithm : string)
    (c : Z) :
  8 <= initial_num <= 18 ->
  exists gui,
    GameGUI.start_game initial_num first_player algorithm c = Some (gui, 0)
    /\ reachable (GameGUI.state gui).
Proof.
  intros H. unfold GameGUI.start_game, bind, reset, ret.
  eexists. split; [reflexivity |]. simpl.
  apply reachable_start. exact H.
Qed.

Lemma apply_move_reachable (gui : GameGUI.t) (multiplier : Z) :
  reachable (GameGUI.state gui) ->
  is_terminal (GameGUI.state gui) = false ->
  multiplier = 2 \/ multiplier = 3 \/ multiplier = 4 ->
  reachable (GameGUI.state (GameGUI.apply_move gui multiplier)).
Proof.
  intros Hr Ht Hm. rewrite apply_move_state.
  apply (reachable_step (GameGUI.state gui) multiplier); [exact Hr |].
  apply In_get_successors. auto.
Qed.

(** After [k] moves of a game started in the offered range the number is at
    least [8 * 2 ^ k] and the scores differ by at most [k]; a state that
    still has successors is below 1200, so no game has more than 8 moves. *)
Lemma reachable_bounds (s : GameState) :
  reachable s ->
  exists k,
    0 <= k <= 8
    /\ 8 * 2 ^ k <= current_number s
    /\ Z.abs (computer_score s - human_score s) <= k.
Proof.
  induction 1 as [n p Hn | s move child Hs IH Hin].
  - exists 0. simpl. lia.
  - destruct IH as (k & Hk & Hnum & Hdiff).
    apply In_get_successors in Hin as (Ht & Hm & ->).
    apply is_terminal_false in Ht.
    assert (Hk8 : k <> 8) by (intros ->; simpl in Hnum; lia).
    exists (k + 1). rewrite successor_current_number.
    rewrite Z.pow_add_r by lia. change (2 ^ 1) with 2.
    assert (HP : 0 < 2 ^ k) by (apply Z.pow_pos_nonneg; lia).
    destruct (successor_parity_rule s move) as [_ Hmv].
    unfold score_movement in Hmv.
    repeat split; try lia; nia.
Qed.

(** C8: in every state reachable by legal moves from a start with both
    scores zero and a number from 8 to 18, [computer_score - human_score]
    is smaller in absolute value than 999999; so the evaluation of such a
    state, when it is not terminal, lies strictly between the two terminal
    sentinels: any terminal state won by the computer evaluates higher, any
    terminal state won by the human lower. *)
Theorem terminal_dominance (s : GameState) :
  reachable s ->
  Z.abs (computer_score s - human_score s) < 999999
  /\ (is_terminal s = false ->
      -999999 < evaluate s < 999999
      /\ forall t,
           is_terminal t = true ->
           (computer_score t > human_score t -> evaluate s < evaluate t)
           /\ (human_score t > computer_score t -> evaluate t < evaluate s)).
Proof.
  intros Hr. destruct (reachable_bounds s Hr) as (k & Hk & _ & Hdiff).
  split; [lia |]. intros Ht.
  assert (Hs : evaluate s = computer_score s - human_score s)
    by (apply evaluate_nonterminal; exact Ht).
  split; [lia |]. intros t Htt. split; intros Hw.
  - assert (evaluate t = 999999) by (apply evaluate_computer_wins; assumption). lia.
  - assert (evaluate t = -999999) by (apply evaluate_human_wins; assumption). lia.
Qed.

Lemma terminal_dominance_witness :
  reachable (mkGameState 24 0 (-1) COMPUTER)
  /\ Z.abs (-1 - 0) < 999999
  /\ -999999 < evaluate (mkGameState 24 0 (-1) COMPUTER) < 999999.
Proof.
  assert (H : reachable (mkGameState 24 0 (-1) COMPUTER)).
  { apply (reachable_step (mkGameState 8 0 0 HUMAN) 3).
    - apply reachable_start. lia.
    - simpl. auto. }
  split; [exact H |]. split.
  - exact (proj1 (terminal_dominance _ H)).
  - exact (proj1 (proj2 (terminal_dominance _ H) eq_refl)).
Defined.

(** ** The node counter *)

Lemma add_counter_add {A} (c d : Z) (r : option (A * Z)) :
  add_counter (c + d) r = add_counter c (add_counter d r).
Proof. destruct r as [[a n] |]; simpl; [f_equal; f_equal; lia | reflexivity]. Qed.

Section ShiftLoops.

Variable rec : GameState -> M search_result.

Hypothesis rec_shift :
  forall child c d, rec child (c + d) = add_counter c (rec child d).

Lemma minimax_max_loop_shift :
  forall succs V Vm c d,
    minimax_max_loop rec succs V Vm (c + d) =
    add_counter c (minimax_max_loop rec succs V Vm d).
Proof.
  induction succs as [| [move child] rest IH]; intros V Vm c d; simpl;
    [reflexivity |].
  unfold bind. rewrite rec_shift.
  destruct (rec child d) as [[[val m] d'] |]; simpl; [| reflexivity].
  destruct (num_gtb val V); apply IH.
Qed.

Lemma minimax_min_loop_shift :
  forall succs V Vm c d,
    minimax_min_loop rec succs V Vm (c + d) =
    add_counter c (minimax_min_loop rec succs V Vm d).
Proof.
  induction succs as [| [move child] rest IH]; intros V Vm c d; simpl;
    [reflexivity |].
  unfold bind. rewrite rec_shift.
  destruct (rec child d) as [[[val m] d'] |]; simpl; [| reflexivity].
  destruct (num_ltb val V); apply IH.
Qed.

End ShiftLoops.

Section ShiftAlphaBetaLoops.

Variable rec : GameState -> number -> number -> M search_result.

Hypothesis rec_shift :
  forall child a b c d, rec child a b (c + d) = add_counter c (rec child a b d).

Lemma alpha_beta_max_loop_shift :
  forall succs alpha beta best bm c d,
    alpha_beta_max_loop rec succs alpha beta best bm (c + d) =
    add_counter c (alpha_beta_max_loop rec succs alpha beta best bm d).
Proof.
  induction succs as [| [move child] rest IH]; intros alpha beta best bm c d;
    simpl; [reflexivity |].
  unfold bind. rewrite rec_shift.
  destruct (rec child alpha beta d) as [[[val m] d'] |]; simpl; [| reflexivity].
  destruct (num_gtb val best);
    match goal with |- context [num_geb ?x ?y] => destruct (num_geb x y) end;
    (reflexivity || apply IH).
Qed.

Lemma alpha_beta_min_loop_shift :
  forall succs alpha beta best bm c d,
    alpha_beta_min_loop rec succs alpha beta best bm (c + d) =
    add_counter c (alpha_beta_min_loop rec succs alpha beta best bm d).
Proof.
  induction succs as [| [move child] rest IH]; intros alpha beta best bm c d;
    simpl; [reflexivity |].
  unfold bind. rewrite rec_shift.
  destruct (rec child alpha beta d) as [[[val m] d'] |]; simpl; [| reflexivity].
  destruct (num_ltb val best);
    match goal with |- context [num_leb ?x ?y] => destruct (num_leb x y) end;
    (reflexivity || apply IH).
Qed.

End ShiftAlphaBetaLoops.

(** Neither search reads the counter: started [c] higher, it ends [c]
    higher. *)
Lemma minimax_shift :
  forall fuel s depth flag c d,
    minimax fuel s depth flag (c + d) = add_counter c (minimax fuel s depth flag d).
Proof.
  induction fuel as [| fuel IH]; intros s depth flag c d; [reflexivity |].
  simpl. unfold bind, tick.
  replace (c + d + 1) with (c + (d + 1)) by lia.
  destruct ((depth =? 0) || is_terminal s); [reflexivity |].
  destruct flag.
  - apply minimax_max_loop_shift. intros child c' d'. apply IH.
  - apply minimax_min_loop_shift. intros child c' d'. apply IH.
Qed.

Lemma alpha_beta_shift :
  forall fuel s depth alpha beta flag c d,
    alpha_beta fuel s depth alpha beta flag (c + d) =
    add_counter c (alpha_beta fuel s depth alpha beta flag d).
Proof.
  induction fuel as [| fuel IH]; intros s depth alpha beta flag c d;
    [reflexivity |].
  simpl. unfold bind, tick.
  replace (c + d + 1) with (c + (d + 1)) by lia.
  destruct ((depth =? 0) || is_terminal s); [reflexivity |].
  destruct flag.
  - apply alpha_beta_max_loop_shift. intros child a b c' d'. apply IH.
  - apply alpha_beta_min_loop_shift. intros child a b c' d'. apply IH.
Qed.

Lemma computer_move_shift :
  forall fuel s algorithm depth c d,
    computer_move fuel s algorithm depth (c + d) =
    add_counter c (computer_move fuel s algorithm depth d).
Proof.
  intros fuel s algorithm depth c d. unfold computer_move, bind, ret.
  destruct (String.eqb algorithm "Minimax").
  - rewrite minimax_shift.
    destruct (minimax fuel s depth true d) as [[[val m] d'] |]; reflexivity.
  - rewrite alpha_beta_shift.
    destruct (alpha_beta fuel s depth NegInf PosInf true d) as [[[val m] d'] |];
      reflexivity.
Qed.

(** Every call counts itself. *)
Lemma minimax_counts_itself :
  forall fuel s depth flag c r c',
    minimax fuel s depth flag c = Some (r, c') -> c + 1 <= c'.
Proof.
  assert (Hmax : forall rec,
             (forall child c r c', rec child c = Some (r, c') -> c <= c') ->
             forall succs V Vm c r c',
               minimax_max_loop rec succs V Vm c = Some (r, c') -> c <= c').
  { intros rec Hrec.
    induction succs as [| [move child] rest IH]; intros V Vm c r c' H;
      simpl in H.
    - inversion H; lia.
    - unfold bind in H.
      destruct (rec child c) as [[[val m] c1] |] eqn:Ec; [| discriminate].
      apply Hrec in Ec.
      destruct (num_gtb val V); apply IH in H; lia. }
  assert (Hmin : forall rec,
             (forall child c r c', rec child c = Some (r, c') -> c <= c') ->
             forall succs V Vm c r c',
               minimax_min_loop rec succs V Vm c = Some (r, c') -> c <= c').
  { intros rec Hrec.
    induction succs as [| [move child] rest IH]; intros V Vm c r c' H;
      simpl in H.
    - inversion H; lia.
    - unfold bind in H.
      destruct (rec child c) as [[[val m] c1] |] eqn:Ec; [| discriminate].
      apply Hrec in Ec.
      destruct (num_ltb val V); apply IH in H; lia. }
  induction fuel as [| fuel IH]; intros s depth flag c r c' H;
    [discriminate |].
  simpl in H. unfold bind, tick in H.
  destruct ((depth =? 0) || is_terminal s); [inversion H; lia |].
  destruct flag.
  - apply Hmax in H; [lia |]. intros child c1 r1 c2 Hc. apply IH in Hc. lia.
  - apply Hmin in H; [lia |]. intros child c1 r1 c2 Hc. apply IH in Hc. lia.
Qed.

Lemma alpha_beta_counts_itself :
  forall fuel s depth alpha beta flag c r c',
    alpha_beta fuel s depth alpha beta flag c = Some (r, c') -> c + 1 <= c'.
Proof.
  assert (Hmax : forall rec,
             (forall child a b c r c', rec child a b c = Some (r, c') -> c <= c') ->
             forall succs alpha beta best bm c r c',
               alpha_beta_max_loop rec succs alpha beta best bm c = Some (r, c') ->
               c <= c').
  { intros rec Hrec.
    induction succs as [| [move child] rest IH];
      intros alpha beta best bm c r c' H; simpl in H.
    - inversion H; lia.
    - unfold bind in H.
      destruct (rec child alpha beta c) as [[[val m] c1] |] eqn:Ec;
        [| discriminate].
      apply Hrec in Ec.
      destruct (num_gtb val best);
        match type of H with
        | context [num_geb ?x ?y] => destruct (num_geb x y)
        end;
        try (inversion H; lia); apply IH in H; lia. }
  assert (Hmin : forall rec,
             (forall child a b c r c', rec child a b c = Some (r, c') -> c <= c') ->
             forall succs alpha beta best bm c r c',
               alpha_beta_min_loop rec succs alpha beta best bm c = Some (r, c') ->
               c <= c').
  { intros rec Hrec.
    induction succs as [| [move child] rest IH];
      intros alpha beta best bm c r c' H; simpl in H.
    - inversion H; lia.
    - unfold bind in H.
      destruct (rec child alpha beta c) as [[[val m] c1] |] eqn:Ec;
        [| discriminate].
      apply Hrec in Ec.
      destruct (num_ltb val best);
        match type of H with
        | context [num_leb ?x ?y] => destruct (num_leb x y)
        end;
        try (inversion H; lia); apply IH in H; lia. }
  induction fuel as [| fuel IH]; intros s depth alpha beta flag c r c' H;
    [discriminate |].
  simpl in H. unfold bind, tick in H.
  destruct ((depth =? 0) || is_terminal s); [inversion H; lia |].
  destruct flag.
  - apply Hmax in H; [lia |]. intros child a b c1 r1 c2 Hc. apply IH in Hc. lia.
  - apply Hmin in H; [lia |]. intros child a b c1 r1 c2 Hc. apply IH in Hc. lia.
Qed.

(** The counter after a minimax search: the size of the tree it walks. *)

Lemma sum_sizes_cons (size : GameState -> option Z) move child rest acc :
  sum_sizes size ((move, child) :: rest) acc =
  sum_sizes size rest
    match acc, size child with
    | Some a, Some k => Some (a + k)
    | _, _ => None
    end.
Proof. reflexivity. Qed.

Lemma sum_sizes_None (size : GameState -> option Z) (succs : list (Z * GameState)) :
  sum_sizes size succs None = None.
Proof.
  induction succs as [| [move child] rest IH]; [reflexivity |].
  rewrite sum_sizes_cons. exact IH.
Qed.

Lemma sum_sizes_shift (size : GameState -> option Z) :
  forall succs c a,
    sum_sizes size succs (Some (c + a)) =
    option_map (Z.add c) (sum_sizes size succs (Some a)).
Proof.
  induction succs as [| [move child] rest IH]; intros c a; [reflexivity |].
  rewrite !sum_sizes_cons. destruct (size child) as [k |].
  - rewrite <- Z.add_assoc. apply IH.
  - rewrite sum_sizes_None. reflexivity.
Qed.

Section CountLoops.

Variable rec : GameState -> M search_result.
Variable size : GameState -> option Z.

Hypothesis rec_count :
  forall child c, counter_after (rec child c) = option_map (Z.add c) (size child).

Lemma minimax_max_loop_count :
  forall succs V Vm c,
    counter_after (minimax_max_loop rec succs V Vm c) =
    sum_sizes size succs (Some c).
Proof.
  induction succs as [| [move child] rest IH]; intros V Vm c; [reflexivity |].
  rewrite sum_sizes_cons. cbn [minimax_max_loop minimax_min_loop].
  unfold bind. pose proof (rec_count child c) as Hc.
  destruct (rec child c) as [[[val m] c1] |], (size child) as [k |];
    simpl in Hc; try discriminate.
  - inversion Hc; subst. destruct (num_gtb val V); apply IH.
  - rewrite sum_sizes_None. reflexivity.
Qed.

Lemma minimax_min_loop_count :
  forall succs V Vm c,
    counter_after (minimax_min_loop rec succs V Vm c) =
    sum_sizes size succs (Some c).
Proof.
  induction succs as [| [move child] rest IH]; intros V Vm c; [reflexivity |].
  rewrite sum_sizes_cons. cbn [minimax_max_loop minimax_min_loop].
  unfold bind. pose proof (rec_count child c) as Hc.
  destruct (rec child c) as [[[val m] c1] |], (size child) as [k |];
    simpl in Hc; try discriminate.
  - inversion Hc; subst. destruct (num_ltb val V); apply IH.
  - rewrite sum_sizes_None. reflexivity.
Qed.

End CountLoops.

Lemma minimax_count :
  forall fuel s depth flag c,
    counter_after (minimax fuel s depth flag c) =
    option_map (Z.add c) (tree_size fuel s depth).
Proof.
  induction fuel as [| fuel IH]; intros s depth flag c; [reflexivity |].
  simpl. unfold bind, tick.
  destruct ((depth =? 0) || is_terminal s); [reflexivity |].
  rewrite <- sum_sizes_shift.
  destruct flag.
  - apply minimax_max_loop_count. intros child c'. apply IH.
  - apply minimax_min_loop_count. intros child c'. apply IH.
Qed.

(** Alpha-beta walks a part of the same tree. *)

Lemma sum_sizes_ge (size : GameState -> option Z) :
  (forall child k, size child = Some k -> 0 <= k) ->
  forall succs a K, sum_sizes size succs (Some a) = Some K -> a <= K.
Proof.
  intros Hsize. induction succs as [| [move child] rest IH]; intros a K H.
  - inversion H. lia.
  - rewrite sum_sizes_cons in H. destruct (size child) as [k |] eqn:Ek.
    + apply IH in H. apply Hsize in Ek. lia.
    + rewrite sum_sizes_None in H. discriminate.
Qed.

Lemma tree_size_pos :
  forall fuel s depth K, tree_size fuel s depth = Some K -> 1 <= K.
Proof.
  induction fuel as [| fuel IH]; intros s depth K H; [discriminate |].
  simpl in H. destruct ((depth =? 0) || is_terminal s).
  - inversion H. lia.
  - apply sum_sizes_ge in H; [exact H |].
    intros child k Hk. apply IH in Hk. lia.
Qed.

Section BoundLoops.

Variable rec : GameState -> number -> number -> M search_result.
Variable size : GameState -> option Z.

Hypothesis size_nonneg : forall child k, size child = Some k -> 0 <= k.

Hypothesis rec_bound :
  forall child a b c r c' k,
    rec child a b c = Some (r, c') -> size child = Some k -> c' <= c + k.

Lemma alpha_beta_max_loop_bound :
  forall succs alpha beta best bm c r c' acc K,
    alpha_beta_max_loop rec succs alpha beta best bm c = Some (r, c') ->
    sum_sizes size succs (Some acc) = Some K ->
    c' - c <= K - acc.
Proof.
  induction succs as [| [move child] rest IH];
    intros alpha beta best bm c r c' acc K H HK.
  - inversion H; inversion HK. lia.
  - rewrite sum_sizes_cons in HK. destruct (size child) as [k |] eqn:Ek;
      [| rewrite sum_sizes_None in HK; discriminate].
    simpl in H. unfold bind in H.
    destruct (rec child alpha beta c) as [[[val m] c1] |] eqn:Ec;
      [| discriminate].
    pose proof (rec_bound _ _ _ _ _ _ _ Ec Ek) as Hc.
    pose proof (sum_sizes_ge size size_nonneg _ _ _ HK) as HK'.
    destruct (num_gtb val best);
      match type of H with
      | context [num_geb ?x ?y] => destruct (num_geb x y)
      end;
      try (inversion H; lia);
      (eapply IH in H; [| exact HK]; lia).
Qed.

Lemma alpha_beta_min_loop_bound :
  forall succs alpha beta best bm c r c' acc K,
    alpha_beta_min_loop rec succs alpha beta best bm c = Some (r, c') ->
    sum_sizes size succs (Some acc) = Some K ->
    c' - c <= K - acc.
Proof.
  induction succs as [| [move child] rest IH];
    intros alpha beta best bm c r c' acc K H HK.
  - inversion H; inversion HK. lia.
  - rewrite sum_sizes_cons in HK. destruct (size child) as [k |] eqn:Ek;
      [| rewrite sum_sizes_None in HK; discriminate].
    simpl in H. unfold bind in H.
    destruct (rec child alpha beta c) as [[[val m] c1] |] eqn:Ec;
      [| discriminate].
    pose proof (rec_bound _ _ _ _ _ _ _ Ec Ek) as Hc.
    pose proof (sum_sizes_ge size size_nonneg _ _ _ HK) as HK'.
    destruct (num_ltb val best);
      match type of H with
      | context [num_leb ?x ?y] => destruct (num_leb x y)
      end;
      try (inversion H; lia);
      (eapply IH in H; [| exact HK]; lia).
Qed.

End BoundLoops.

Lemma alpha_beta_count_bound :
  forall fuel s depth alpha beta flag c r c' K,
    alpha_beta fuel s depth alpha beta flag c = Some (r, c') ->
    tree_size fuel s depth = Some K ->
    c' <= c + K.
Proof.
  induction fuel as [| fuel IH];
    intros s depth alpha beta flag c r c' K H HK; [discriminate |].
  simpl in H, HK. unfold bind, tick in H.
  destruct ((depth =? 0) || is_terminal s).
  - inversion H; inversion HK. lia.
  - assert (Hpos : forall child k,
               tree_size fuel child (depth - 1) = Some k -> 0 <= k).
    { intros child k Hk. apply tree_size_pos in Hk. lia. }
    destruct flag.
    + eapply alpha_beta_max_loop_bound in H; [| exact Hpos | | exact HK]; [lia |].
      intros child a b c1 r1 c2 k. apply IH.
    + eapply alpha_beta_min_loop_bound in H; [| exact Hpos | | exact HK]; [lia |].
      intros child a b c1 r1 c2 k. apply IH.
Qed.

(** Where alpha-beta returns, minimax would, and the tree is finite. *)
Lemma alpha_beta_tree_size :
  forall fuel s depth alpha beta flag c r c',
    alpha_beta fuel s depth alpha beta flag c = Some (r, c') ->
    exists K, tree_size fuel s depth = Some K.
Proof.
  intros fuel s depth alpha beta flag c r c' H.
  destruct (tree_size fuel s depth) as [K |] eqn:EK; [eauto |].
  exfalso.
  pose proof (minimax_count fuel s depth flag c) as Hc. rewrite EK in Hc.
  assert (Hm : minimax_pure fuel s depth flag = None).
  { rewrite <- (minimax_erase fuel s depth flag c).
    destruct (minimax fuel s depth flag c) as [[r1 c1] |]; [discriminate |].
    reflexivity. }
  apply (alpha_beta_pure_None fuel s depth alpha beta flag) in Hm.
  rewrite <- (alpha_beta_erase fuel s depth alpha beta flag c), H in Hm.
  discriminate.
Qed.

(** The counter after an alpha-beta search: the calls it makes. *)

Section CountAlphaBetaLoops.

Variable rec : GameState -> number -> number -> M search_result.
Variable val_rec : GameState -> number -> number -> option search_result.
Variable cnt_rec : GameState -> number -> number -> option Z.

Hypothesis rec_value :
  forall child a b c, result (rec child a b c) = val_rec child a b.

Hypothesis rec_calls :
  forall child a b c,
    counter_after (rec child a b c) = option_map (Z.add c) (cnt_rec child a b).

Lemma alpha_beta_max_loop_calls :
  forall succs alpha beta best bm c acc,
    counter_after (alpha_beta_max_loop rec succs alpha beta best bm (c + acc)) =
    option_map (Z.add c) (calls_max_loop val_rec cnt_rec succs alpha beta best acc).
Proof.
  induction succs as [| [move child] rest IH]; intros alpha beta best bm c acc;
    [reflexivity |].
  simpl. unfold bind.
  pose proof (rec_value child alpha beta (c + acc)) as Hv.
  pose proof (rec_calls child alpha beta (c + acc)) as Hk.
  destruct (rec child alpha beta (c + acc)) as [[[val m] c1] |];
    simpl in Hv, Hk; rewrite <- Hv; [| reflexivity].
  destruct (cnt_rec child alpha beta) as [k |]; [| discriminate].
  simpl in Hk. inversion Hk; subst c1.
  replace (c + acc + k) with (c + (acc + k)) by lia.
  destruct (num_gtb val best);
    match goal with |- context [num_geb ?x ?y] => destruct (num_geb x y) end;
    (reflexivity || apply IH).
Qed.

Lemma alpha_beta_min_loop_calls :
  forall succs alpha beta best bm c acc,
    counter_after (alpha_beta_min_loop rec succs alpha beta best bm (c + acc)) =
    option_map (Z.add c) (calls_min_loop val_rec cnt_rec succs alpha beta best acc).
Proof.
  induction succs as [| [move child] rest IH]; intros alpha beta best bm c acc;
    [reflexivity |].
  simpl. unfold bind.
  pose proof (rec_value child alpha beta (c + acc)) as Hv.
  pose proof (rec_calls child alpha beta (c + acc)) as Hk.
  destruct (rec child alpha beta (c + acc)) as [[[val m] c1] |];
    simpl in Hv, Hk; rewrite <- Hv; [| reflexivity].
  destruct (cnt_rec child alpha beta) as [k |]; [| discriminate].
  simpl in Hk. inversion Hk; subst c1.
  replace (c + acc + k) with (c + (acc + k)) by lia.
  destruct (num_ltb val best);
    match goal with |- context [num_leb ?x ?y] => destruct (num_leb x y) end;
    (reflexivity || apply IH).
Qed.

End CountAlphaBetaLoops.

Lemma alpha_beta_count :
  forall fuel s depth alpha beta flag c,
    counter_after (alpha_beta fuel s depth alpha beta flag c) =
    option_map (Z.add c) (alpha_beta_calls fuel s depth alpha beta flag).
Proof.
  induction fuel as [| fuel IH]; intros s depth alpha beta flag c;
    [reflexivity |].
  simpl. unfold bind, tick.
  destruct ((depth =? 0) || is_terminal s); [reflexivity |].
  destruct flag.
  - apply alpha_beta_max_loop_calls.
    + intros child a b c'. apply alpha_beta_erase.
    + intros child a b c'. apply IH.
  - apply alpha_beta_min_loop_calls.
    + intros child a b c'. apply alpha_beta_erase.
    + intros child a b c'. apply IH.
Qed.

Lemma computer_move_count :
  forall fuel s algorithm depth c,
    counter_after (computer_move fuel s algorithm depth c) =
    option_map (Z.add c) (search_calls fuel s algorithm depth).
Proof.
  intros fuel s algorithm depth c. unfold computer_move, search_calls, bind, ret.
  destruct (String.eqb algorithm "Minimax").
  - rewrite <- minimax_count with (flag := true).
    destruct (minimax fuel s depth true c) as [[[val m] c1] |]; reflexivity.
  - rewrite <- alpha_beta_count.
    destruct (alpha_beta fuel s depth NegInf PosInf true c)
      as [[[val m] c1] |]; reflexivity.
Qed.

Lemma apply_move_nodes_label_var (g : GameGUI.t) (m : Z) :
  GameGUI.nodes_label_var (GameGUI.apply_move g m) = GameGUI.nodes_label_var g.
Proof.
  unfold GameGUI.apply_move.
  destruct g as [[n h c p] go alg lbl]; simpl.
  destruct (n * m >=? 1200), (n * m mod 2 =? 0), p; reflexivity.
Qed.

(** C9, as the code has it: [computer_move] does not reset the counter.
    Every search invocation, base-case calls included, adds 1 to it, so a
    call of [computer_move] adds to the value found on entry the number of
    nodes of that search: at least 1 and at most the size of the game tree
    cut at the depth, exactly 1 for a base-case root, and exactly the size
    of the tree for minimax, which prunes nothing.  The reset is
    made by the caller: [computer_turn] zeroes the counter right before
    [computer_move], so after its search the counter and the label show the
    nodes of that single search, whatever the counter was before.  For
    either engine the number added is exactly the number of invocations
    the search makes ([search_calls]); and [start_game] zeroes the counter
    too. *)
Theorem computer_move_adds_nodes_to_counter :
  (forall fuel s algorithm depth c,
     computer_move fuel s algorithm depth c =
     add_counter c (computer_move fuel s algorithm depth 0))
  /\ (forall fuel s algorithm depth c move c',
        computer_move fuel s algorithm depth c = Some (move, c') ->
        exists K, tree_size fuel s depth = Some K /\ c + 1 <= c' <= c + K)
  /\ (forall fuel s algorithm depth c,
        depth = 0 \/ is_terminal s = true ->
        computer_move (S fuel) s algorithm depth c = Some (None, c + 1))
  /\ (forall fuel s depth c,
        counter_after (computer_move fuel s "Minimax" depth c) =
        option_map (Z.add c) (tree_size fuel s depth))
  /\ (forall fuel gui c,
        GameGUI.game_over gui = false ->
        current_player (GameGUI.state gui) = COMPUTER ->
        GameGUI.computer_turn fuel gui c = GameGUI.computer_turn fuel gui 0
        /\ forall gui' c',
             GameGUI.computer_turn fuel gui c = Some (gui', c') ->
             counter_after
               (computer_move fuel (GameGUI.state gui) (GameGUI.algorithm gui) 10 0)
             = Some c'
             /\ GameGUI.nodes_label_var gui' = c'
             /\ search_calls fuel (GameGUI.state gui) (GameGUI.algorithm gui) 10
                = Some c')
  /\ (forall fuel s algorithm depth c,
        counter_after (computer_move fuel s algorithm depth c) =
        option_map (Z.add c) (search_calls fuel s algorithm depth))
  /\ (forall initial_num first_player algorithm c,
        counter_after (GameGUI.start_game initial_num first_player algorithm c)
        = Some 0).
Proof.
  split; [| split; [| split; [| split; [| split; [| split]]]]].
  - intros fuel s algorithm depth c.
    rewrite <- (computer_move_shift fuel s algorithm depth c 0).
    f_equal. lia.
  - intros fuel s algorithm depth c move c' H.
    unfold computer_move, bind, ret in H.
    destruct (String.eqb algorithm "Minimax").
    + destruct (minimax fuel s depth true c) as [[[val m] c1] |] eqn:E;
        [| discriminate].
      inversion H; subst.
      pose proof (minimax_count fuel s depth true c) as Hc. rewrite E in Hc.
      destruct (tree_size fuel s depth) as [K |]; [| discriminate].
      exists K. inversion Hc; subst. apply minimax_counts_itself in E.
      split; [reflexivity | lia].
    + destruct (alpha_beta fuel s depth NegInf PosInf true c)
        as [[[val m] c1] |] eqn:E; [| discriminate].
      inversion H; subst.
      destruct (alpha_beta_tree_size _ _ _ _ _ _ _ _ _ E) as [K HK].
      exists K. split; [exact HK |]. split.
      * eapply alpha_beta_counts_itself; exact E.
      * eapply alpha_beta_count_bound; eassumption.
  - intros fuel s algorithm depth c H.
    assert (E : (depth =? 0) || is_terminal s = true).
    { apply orb_true_iff. destruct H as [-> | H]; auto. }
    unfold computer_move, bind, ret, tick. simpl. unfold bind, tick.
    rewrite E. destruct (String.eqb algorithm "Minimax"); reflexivity.
  - intros fuel s depth c. rewrite <- minimax_count with (flag := true).
    unfold computer_move. rewrite String.eqb_refl. unfold bind, ret.
    destruct (minimax fuel s depth true c) as [[[val m] c1] |]; reflexivity.
  - intros fuel gui c Hgo Hp. unfold GameGUI.computer_turn.
    rewrite Hgo, Hp. simpl. unfold bind, reset, get_counter, ret, no_value.
    split; [reflexivity |].
    intros gui' c' H.
    pose proof (computer_move_count fuel (GameGUI.state gui)
                  (GameGUI.algorithm gui) 10 0) as Hk.
    destruct (computer_move fuel (GameGUI.state gui) (GameGUI.algorithm gui) 10 0)
      as [[[multiplier |] c1] |]; try discriminate.
    inversion H; subst. split; [reflexivity |].
    split; [apply apply_move_nodes_label_var |].
    simpl in Hk.
    destruct (search_calls fuel (GameGUI.state gui) (GameGUI.algorithm gui) 10)
      as [k |]; [| discriminate].
    simpl in Hk. inversion Hk; subst. reflexivity.
  - apply computer_move_count.
  - reflexivity.
Qed.

Lemma computer_move_adds_nodes_to_counter_witness :
  computer_move 2 (mkGameState 600 0 0 COMPUTER) "Alpha-Beta" 1 5 = Some (Some 2, 9)
  /\ exists K,
       tree_size 2 (mkGameState 600 0 0 COMPUTER) 1 = Some K
       /\ 5 + 1 <= 9 <= 5 + K.
Proof.
  assert (H : computer_move 2 (mkGameState 600 0 0 COMPUTER) "Alpha-Beta" 1 5
              = Some (Some 2, 9)) by reflexivity.
  split; [exact H |].
  exact (proj1 (proj2 computer_move_adds_nodes_to_counter) _ _ _ _ _ _ _ H).
Defined.

(** C9, as stated, fails: a minimax search of depth 1 from 600 visits 4
    nodes, yet called with the counter at 5 [computer_move] leaves it at 9,
    not at 4: the counter was not reset at the start of the call. *)
Lemma computer_move_does_not_reset_counter :
  tree_size 2 (mkGameState 600 0 0 COMPUTER) 1 = Some 4
  /\ counter_after (computer_move 2 (mkGameState 600 0 0 COMPUTER) "Minimax" 1 5)
     = Some 9
  /\ counter_after (computer_move 2 (mkGameState 600 0 0 COMPUTER) "Alpha-Beta" 1 5)
     = Some 9
  /\ counter_after (computer_move 2 (mkGameState 600 0 0 COMPUTER) "Minimax" 1 5)
     <> tree_size 2 (mkGameState 600 0 0 COMPUTER) 1.
Proof. repeat split; try reflexivity. discriminate. Qed.

(** ** The choice of the algorithm *)

(** C10: [computer_move] runs minimax for the exact string "Minimax" and
    the alpha-beta engine, with the full window, for every other string,
    among them "minimax", "alpha-beta" and the empty string; an unknown tag
    is no error: with enough fuel the call returns a move and a counter. *)
Theorem computer_move_dispatch :
  (forall fuel s depth c,
     computer_move fuel s "Minimax" depth c =
     ('(_, move) <- minimax fuel s depth true ;; ret move) c)
  /\ (forall algorithm fuel s depth c,
        algorithm <> "Minimax"%string ->
        computer_move fuel s algorithm depth c =
        ('(_, move) <- alpha_beta fuel s depth NegInf PosInf true ;; ret move) c)
  /\ (forall algorithm fuel s depth c,
        In algorithm ["minimax"; "alpha-beta"; "Alpha-Beta"; ""; "MINIMAX"]%string ->
        computer_move fuel s algorithm depth c =
        ('(_, move) <- alpha_beta fuel s depth NegInf PosInf true ;; ret move) c)
  /\ (forall algorithm fuel s depth c,
        fuel_suffices fuel s depth ->
        exists move c', computer_move fuel s algorithm depth c = Some (move, c')).
Proof.
  split; [| split; [| split]].
  - reflexivity.
  - intros algorithm fuel s depth c H. unfold computer_move.
    apply String.eqb_neq in H. rewrite H. reflexivity.
  - intros algorithm fuel s depth c H. simpl in H.
    destruct H as [<- | [<- | [<- | [<- | [<- | []]]]]]; reflexivity.
  - intros algorithm fuel s depth c H. unfold computer_move, bind, ret.
    destruct (String.eqb algorithm "Minimax").
    + destruct (minimax_pure_returns fuel s depth true H) as [[val m] Hr].
      rewrite <- (minimax_erase fuel s depth true c) in Hr.
      apply result_Some in Hr as [c' ->]. eauto.
    + destruct (alpha_beta_pure_returns fuel s depth NegInf PosInf true H)
        as [[val m] Hr].
      rewrite <- (alpha_beta_erase fuel s depth NegInf PosInf true c) in Hr.
      apply result_Some in Hr as [c' ->]. eauto.
Qed.

Lemma computer_move_dispatch_witness :
  "alpha-beta"%string <> "Minimax"%string
  /\ computer_move 2 (mkGameState 600 0 0 COMPUTER) "alpha-beta" 1 0 =
     ('(_, move) <- alpha_beta 2 (mkGameState 600 0 0 COMPUTER) 1 NegInf PosInf true ;;
      ret move) 0.
Proof.
  assert (H : "alpha-beta"%string <> "Minimax"%string) by discriminate.
  split; [exact H |].
  exact (proj1 (proj2 computer_move_dispatch) _ 2%nat _ 1 0 H).
Defined.

(** * Further properties of the code *)

(** ** Alpha-beta with any window *)

(** X1: with any window [alpha < beta], [alpha_beta] returns where [minimax]
    does, and its score is the minimax score when that lies inside the
    window, and otherwise a bound on the same side: at most [alpha] and at
    least the minimax score, or at least [beta] and at most the minimax
    score. *)
Theorem alpha_beta_window_fail_soft :
  forall fuel s depth alpha beta flag c c' v m,
    num_lt alpha beta ->
    result (minimax fuel s depth flag c) = Some (v, m) ->
    exists r m',
      result (alpha_beta fuel s depth alpha beta flag c') = Some (r, m')
      /\ fail_soft alpha beta v r.
Proof.
  intros fuel s depth alpha beta flag c c' v m Hab H.
  rewrite minimax_erase in H. rewrite alpha_beta_erase.
  eapply alpha_beta_pure_fail_soft; eassumption.
Qed.

Lemma alpha_beta_window_fail_soft_witness :
  num_lt (Int 0) (Int 5)
  /\ result (minimax 3 (mkGameState 300 0 0 COMPUTER) 2 true 0)
     = Some (Int 999999, Some 4)
  /\ exists r m',
       result (alpha_beta 3 (mkGameState 300 0 0 COMPUTER) 2 (Int 0) (Int 5) true 0)
       = Some (r, m')
       /\ fail_soft (Int 0) (Int 5) (Int 999999) r.
Proof.
  assert (H1 : num_lt (Int 0) (Int 5)) by reflexivity.
  assert (H2 : result (minimax 3 (mkGameState 300 0 0 COMPUTER) 2 true 0)
               = Some (Int 999999, Some 4)) by reflexivity.
  split; [exact H1 |]. split; [exact H2 |].
  exact (alpha_beta_window_fail_soft 3 _ 2 _ _ true 0 0 _ _ H1 H2).
Defined.

(** X2: whatever its window, [alpha_beta] visits at most as many nodes as
    [minimax] on the same state and depth, and [minimax] returns wherever
    [alpha_beta] does. *)
Theorem alpha_beta_visits_no_more_than_minimax :
  forall fuel s depth alpha beta flag c r c',
    alpha_beta fuel s depth alpha beta flag c = Some (r, c') ->
    exists r' c'',
      minimax fuel s depth flag c = Some (r', c'') /\ c' <= c''.
Proof.
  intros fuel s depth alpha beta flag c r c' H.
  destruct (alpha_beta_tree_size _ _ _ _ _ _ _ _ _ H) as [K HK].
  pose proof (alpha_beta_count_bound _ _ _ _ _ _ _ _ _ _ H HK) as Hle.
  pose proof (minimax_count fuel s depth flag c) as Hc. rewrite HK in Hc.
  destruct (minimax fuel s depth flag c) as [[r' c''] |]; [| discriminate].
  inversion Hc; subst. eauto.
Qed.

Lemma alpha_beta_visits_no_more_than_minimax_witness :
  alpha_beta 3 (mkGameState 300 0 0 COMPUTER) 2 NegInf PosInf true 0
  = Some ((Int 999999, Some 4), 8)
  /\ exists r' c'',
       minimax 3 (mkGameState 300 0 0 COMPUTER) 2 true 0 = Some (r', c'')
       /\ 8 <= c''.
Proof.
  assert (H : alpha_beta 3 (mkGameState 300 0 0 COMPUTER) 2 NegInf PosInf true 0
              = Some ((Int 999999, Some 4), 8)) by reflexivity.
  split; [exact H |].
  exact (alpha_beta_visits_no_more_than_minimax _ _ _ _ _ _ _ _ _ H).
Defined.

Section IntMoveLoops.

Variable rec : GameState -> number -> number -> option search_result.

Hypothesis rec_int :
  forall child a b val m, rec child a b = Some (val, m) -> exists z, val = Int z.

Lemma pure_ab_max_loop_int_move :
  forall succs alpha beta best bm v vm,
    pure_ab_max_loop rec succs alpha beta best bm = Some (v, vm) ->
    (v = best /\ vm = bm)
    \/ exists z mv, v = Int z /\ vm = Some mv /\ In mv (map fst succs).
Proof.
  induction succs as [| [move child] rest IH];
    intros alpha beta best bm v vm H; simpl in H.
  - inversion H; auto.
  - destruct (rec child alpha beta) as [[val m] |] eqn:Ec; [| discriminate].
    destruct (rec_int _ _ _ _ _ Ec) as [z ->].
    destruct (num_gtb (Int z) best);
      match type of H with
      | context [num_geb ?x ?y] => destruct (num_geb x y)
      end.
    + inversion H; subst. right. exists z, move. simpl. auto.
    + apply IH in H as [[-> ->] | (z' & mv & -> & -> & Hin)]; right.
      * exists z, move. simpl. auto.
      * exists z', mv. simpl. auto.
    + inversion H; auto.
    + apply IH in H as [[-> ->] | (z' & mv & -> & -> & Hin)]; [auto | right].
      exists z', mv. simpl. auto.
Qed.

Lemma pure_ab_min_loop_int_move :
  forall succs alpha beta best bm v vm,
    pure_ab_min_loop rec succs alpha beta best bm = Some (v, vm) ->
    (v = best /\ vm = bm)
    \/ exists z mv, v = Int z /\ vm = Some mv /\ In mv (map fst succs).
Proof.
  induction succs as [| [move child] rest IH];
    intros alpha beta best bm v vm H; simpl in H.
  - inversion H; auto.
  - destruct (rec child alpha beta) as [[val m] |] eqn:Ec; [| discriminate].
    destruct (rec_int _ _ _ _ _ Ec) as [z ->].
    destruct (num_ltb (Int z) best);
      match type of H with
      | context [num_leb ?x ?y] => destruct (num_leb x y)
      end.
    + inversion H; subst. right. exists z, move. simpl. auto.
    + apply IH in H as [[-> ->] | (z' & mv & -> & -> & Hin)]; right.
      * exists z, move. simpl. auto.
      * exists z', mv. simpl. auto.
    + inversion H; auto.
    + apply IH in H as [[-> ->] | (z' & mv & -> & -> & Hin)]; [auto | right].
      exists z', mv. simpl. auto.
Qed.

Lemma pure_ab_max_loop_from_NegInf :
  forall succs alpha beta v vm,
    succs <> [] ->
    pure_ab_max_loop rec succs alpha beta NegInf None = Some (v, vm) ->
    exists z mv, v = Int z /\ vm = Some mv /\ In mv (map fst succs).
Proof.
  intros [| [move child] rest] alpha beta v vm Hne H; [congruence |].
  simpl in H.
  destruct (rec child alpha beta) as [[val m] |] eqn:Ec; [| discriminate].
  destruct (rec_int _ _ _ _ _ Ec) as [z ->]. cbn [num_gtb num_ltb] in H.
  match type of H with
  | context [num_geb ?x ?y] => destruct (num_geb x y)
  end.
  - inversion H; subst. exists z, move. simpl. auto.
  - apply pure_ab_max_loop_int_move in H
      as [[-> ->] | (z' & mv & -> & -> & Hin)].
    + exists z, move. simpl. auto.
    + exists z', mv. simpl. auto.
Qed.

Lemma pure_ab_min_loop_from_PosInf :
  forall succs alpha beta v vm,
    succs <> [] ->
    pure_ab_min_loop rec succs alpha beta PosInf None = Some (v, vm) ->
    exists z mv, v = Int z /\ vm = Some mv /\ In mv (map fst succs).
Proof.
  intros [| [move child] rest] alpha beta v vm Hne H; [congruence |].
  simpl in H.
  destruct (rec child alpha beta) as [[val m] |] eqn:Ec; [| discriminate].
  destruct (rec_int _ _ _ _ _ Ec) as [z ->]. cbn [num_gtb num_ltb] in H.
  match type of H with
  | context [num_leb ?x ?y] => destruct (num_leb x y)
  end.
  - inversion H; subst. exists z, move. simpl. auto.
  - apply pure_ab_min_loop_int_move in H
      as [[-> ->] | (z' & mv & -> & -> & Hin)].
    + exists z, move. simpl. auto.
    + exists z', mv. simpl. auto.
Qed.

End IntMoveLoops.

Lemma alpha_beta_pure_int :
  forall fuel s depth alpha beta flag val m,
    alpha_beta_pure fuel s depth alpha beta flag = Some (val, m) ->
    exists z, val = Int z.
Proof.
  induction fuel as [| fuel IH]; intros s depth alpha beta flag val m H;
    simpl in H; [discriminate |].
  destruct ((depth =? 0) || is_terminal s) eqn:Eb.
  - inversion H; eauto.
  - apply base_case_false in Eb as [_ Ht].
    rewrite (get_successors_nonterminal s Ht) in H.
    destruct flag.
    + apply pure_ab_max_loop_from_NegInf in H as (z & mv & -> & _);
        [eauto | | discriminate].
      intros child a b val' m'. apply IH.
    + apply pure_ab_min_loop_from_PosInf in H as (z & mv & -> & _);
        [eauto | | discriminate].
      intros child a b val' m'. apply IH.
Qed.

Lemma alpha_beta_pure_move :
  forall fuel s depth alpha beta flag val m,
    depth <> 0 -> is_terminal s = false ->
    alpha_beta_pure fuel s depth alpha beta flag = Some (val, m) ->
    exists mv, m = Some mv /\ (mv = 2 \/ mv = 3 \/ mv = 4).
Proof.
  intros [| fuel] s depth alpha beta flag val m Hd Ht H; simpl in H;
    [discriminate |].
  apply Z.eqb_neq in Hd. rewrite Hd, Ht in H. simpl in H.
  rewrite (get_successors_nonterminal s Ht) in H.
  destruct flag.
  - apply pure_ab_max_loop_from_NegInf in H as (z & mv & _ & -> & Hin);
      [| intros child a b val' m'; apply alpha_beta_pure_int | discriminate].
    exists mv. split; [reflexivity |]. simpl in Hin.
    destruct Hin as [<- | [<- | [<- | []]]]; auto.
  - apply pure_ab_min_loop_from_PosInf in H as (z & mv & _ & -> & Hin);
      [| intros child a b val' m'; apply alpha_beta_pure_int | discriminate].
    exists mv. split; [reflexivity |]. simpl in Hin.
    destruct Hin as [<- | [<- | [<- | []]]]; auto.
Qed.

(** A search without depth bound below a number that is not positive never
    meets a terminal state: no fuel is enough. *)
Lemma alpha_beta_pure_never_returns :
  forall fuel s depth alpha beta flag,
    current_number s <= 0 -> depth < 0 ->
    alpha_beta_pure fuel s depth alpha beta flag = None.
Proof.
  induction fuel as [| fuel IH]; intros s depth alpha beta flag Hn Hd;
    [reflexivity |].
  assert (Ht : is_terminal s = false) by (apply is_terminal_false; lia).
  assert (Hz : (depth =? 0) = false) by (apply Z.eqb_neq; lia).
  simpl. rewrite Hz, Ht. simpl.
  rewrite (get_successors_nonterminal s Ht).
  assert (Hc : forall a b fl,
             alpha_beta_pure fuel (successor s 2) (depth - 1) a b fl = None).
  { intros a b fl. apply IH; [rewrite successor_current_number |]; lia. }
  destruct flag; simpl; rewrite Hc; reflexivity.
Qed.

(** X3: with any window, also an empty one where the first child cuts the
    loop off, whatever [alpha_beta] returns on a non-terminal state at a
    depth other than 0 is an integer score, never an infinity, together
    with an actual move 2, 3 or 4.  It does return when the depth is
    positive or the number is positive, given enough nested calls; with a
    negative depth and a number that is not positive it never returns. *)
Theorem alpha_beta_returns_score_and_move :
  forall fuel s depth alpha beta flag c,
    depth <> 0 -> is_terminal s = false ->
    (forall r c',
       alpha_beta fuel s depth alpha beta flag c = Some (r, c') ->
       exists score move,
         r = (Int score, Some move) /\ (move = 2 \/ move = 3 \/ move = 4))
    /\ (fuel_suffices fuel s depth ->
        exists r c', alpha_beta fuel s depth alpha beta flag c = Some (r, c'))
    /\ (current_number s <= 0 -> depth < 0 ->
        alpha_beta fuel s depth alpha beta flag c = None).
Proof.
  intros fuel s depth alpha beta flag c Hd Ht. split; [| split].
  - intros [val m] c' H.
    assert (Hr : alpha_beta_pure fuel s depth alpha beta flag = Some (val, m)).
    { rewrite <- (alpha_beta_erase fuel s depth alpha beta flag c), H.
      reflexivity. }
    destruct (alpha_beta_pure_int _ _ _ _ _ _ _ _ Hr) as [z ->].
    destruct (alpha_beta_pure_move _ _ _ _ _ _ _ _ Hd Ht Hr) as (mv & -> & Hmv).
    eauto.
  - intros Hf.
    destruct (alpha_beta_pure_returns fuel s depth alpha beta flag Hf) as [r Hr].
    rewrite <- (alpha_beta_erase fuel s depth alpha beta flag c) in Hr.
    apply result_Some in Hr as [c' Hr]. eauto.
  - intros Hn Hneg. apply result_None.
    rewrite alpha_beta_erase. apply alpha_beta_pure_never_returns; assumption.
Qed.

Lemma alpha_beta_returns_score_and_move_witness :
  alpha_beta 3 (mkGameState 300 0 0 COMPUTER) 2 (Int 7) (Int 7) true 0
  = Some ((Int 0, Some 2), 3)
  /\ (exists score move,
        (Int 0, Some 2) = (Int score, Some move)
        /\ (move = 2 \/ move = 3 \/ move = 4))
  /\ alpha_beta 5 (mkGameState 0 0 0 COMPUTER) (-1) NegInf PosInf true 0 = None.
Proof.
  assert (H : alpha_beta 3 (mkGameState 300 0 0 COMPUTER) 2 (Int 7) (Int 7) true 0
              = Some ((Int 0, Some 2), 3)) by reflexivity.
  split; [exact H |]. split.
  - apply (proj1 (alpha_beta_returns_score_and_move
                    3 (mkGameState 300 0 0 COMPUTER) 2 (Int 7) (Int 7) true 0
                    ltac:(lia) eq_refl) _ _ H).
  - apply (proj2 (proj2 (alpha_beta_returns_score_and_move
                           5 (mkGameState 0 0 0 COMPUTER) (-1) NegInf PosInf true 0
                           ltac:(lia) eq_refl))); simpl; lia.
Defined.

(** ** Invariants of the game *)

Lemma successor_even (s : GameState) (m : Z) :
  Z.even (current_number s) = true ->
  Z.even (current_number (successor s m)) = true
  /\ score_of (current_player s) (successor s m) = score_of (current_player s) s
  /\ score_of (opponent (current_player s)) (successor s m)
     = score_of (opponent (current_player s)) s - 1.
Proof.
  intros He.
  assert (He' : Z.even (current_number s * m) = true)
    by (rewrite Z.even_mul, He; reflexivity).
  split; [rewrite successor_current_number; exact He' |].
  destruct (successor_parity_rule s m) as [Hp _].
  unfold parity_rule in Hp. rewrite successor_current_number, He' in Hp.
  destruct Hp as [H1 H2]. auto.
Qed.

Lemma follows_even (s t : GameState) :
  Z.even (current_number s) = true ->
  follows s t ->
  Z.even (current_number t) = true
  /\ human_score t <= human_score s
  /\ computer_score t <= computer_score s.
Proof.
  intros He Hf. induction Hf as [s | s move child t Hin Hf IH].
  - repeat split; [exact He | lia | lia].
  - apply In_get_successors in Hin as (_ & _ & ->).
    destruct (successor_even s move He) as (He' & Hm & Ho).
    destruct (IH He') as (Ht & Hh & Hc).
    split; [exact Ht |].
    destruct (current_player s); simpl in Hm, Ho; lia.
Qed.

(** X4: once the current number is even it stays even through every later
    legal move, each of these moves takes a point from the mover's opponent
    and gives none, so neither score ever rises again. *)
Theorem even_number_no_more_gains (s t : GameState) :
  Z.even (current_number s) = true ->
  follows s t ->
  Z.even (current_number t) = true
  /\ human_score t <= human_score s
  /\ computer_score t <= computer_score s
  /\ forall move child,
       In (move, child) (get_successors t) ->
       Z.even (current_number child) = true
       /\ score_of (current_player t) child = score_of (current_player t) t
       /\ score_of (opponent (current_player t)) child
          = score_of (opponent (current_player t)) t - 1.
Proof.
  intros He Hf. destruct (follows_even s t He Hf) as (Ht & Hh & Hc).
  repeat split; try assumption;
    apply In_get_successors in H as (_ & _ & ->);
    apply successor_even; exact Ht.
Qed.

Lemma even_number_no_more_gains_witness :
  Z.even (current_number (mkGameState 8 0 0 HUMAN)) = true
  /\ follows (mkGameState 8 0 0 HUMAN) (mkGameState 48 (-1) (-1) HUMAN)
  /\ Z.even 48 = true /\ -1 <= 0 /\ -1 <= 0
  /\ forall move child,
       In (move, child) (get_successors (mkGameState 48 (-1) (-1) HUMAN)) ->
       Z.even (current_number child) = true
       /\ human_score child = -1
       /\ computer_score child = -1 - 1.
Proof.
  assert (H1 : Z.even (current_number (mkGameState 8 0 0 HUMAN)) = true)
    by reflexivity.
  assert (H2 : follows (mkGameState 8 0 0 HUMAN) (mkGameState 48 (-1) (-1) HUMAN)).
  { apply (follows_step _ 3 (mkGameState 24 0 (-1) COMPUTER)); [simpl; auto |].
    apply (follows_step _ 2 (mkGameState 48 (-1) (-1) HUMAN)); [simpl; auto |].
    apply follows_refl. }
  split; [exact H1 |]. split; [exact H2 |].
  exact (even_number_no_more_gains _ _ H1 H2).
Defined.

Lemma reachable_in_bounds (k : nat) (s : GameState) :
  reachable_in k s ->
  8 * 2 ^ Z.of_nat k <= current_number s <= 18 * 4 ^ Z.of_nat k
  /\ current_number s < 4800
  /\ Z.abs (human_score s) + Z.abs (computer_score s) <= Z.of_nat k.
Proof.
  induction 1 as [n p Hn | k s move child Hs IH Hin].
  - simpl. lia.
  - destruct IH as (Hnum & _ & Hsc).
    apply In_get_successors in Hin as (Ht & Hm & ->).
    apply is_terminal_false in Ht.
    rewrite successor_current_number.
    replace (Z.of_nat (S k)) with (Z.of_nat k + 1) by lia.
    rewrite !Z.pow_add_r by lia. change (2 ^ 1) with 2. change (4 ^ 1) with 4.
    assert (HP2 : 0 < 2 ^ Z.of_nat k) by (apply Z.pow_pos_nonneg; lia).
    assert (HP4 : 0 < 4 ^ Z.of_nat k) by (apply Z.pow_pos_nonneg; lia).
    destruct (successor_parity_rule s move) as [_ Hmv].
    unfold score_movement in Hmv.
    repeat split; try lia; nia.
Qed.

(** X5: a game started with a number from 8 to 18 has, after [k] moves, a
    number between [8 * 2^k] and [18 * 4^k], below 4800, and scores whose
    absolute values add up to at most [k]; no position has more than 8
    moves behind it, and no game is over before its 4th move. *)
Theorem game_length_and_bounds (k : nat) (s : GameState) :
  reachable_in k s ->
  (k <= 8)%nat
  /\ 8 * 2 ^ Z.of_nat k <= current_number s <= 18 * 4 ^ Z.of_nat k
  /\ current_number s < 4800
  /\ Z.abs (human_score s) + Z.abs (computer_score s) <= Z.of_nat k
  /\ (is_terminal s = true -> (4 <= k)%nat).
Proof.
  intros H. pose proof (reachable_in_bounds k s H) as (Hnum & Hlt & Hsc).
  assert (Hk : (k <= 8)%nat).
  { destruct (Nat.le_gt_cases k 8) as [Hk | Hk]; [exact Hk | exfalso].
    inversion H as [| k' s' move child Hs' Hin]; subst; [lia |].
    apply reachable_in_bounds in Hs' as (Hnum' & _).
    apply In_get_successors in Hin as (Ht & _).
    apply is_terminal_false in Ht.
    assert (2 ^ 8 <= 2 ^ Z.of_nat k') by (apply Z.pow_le_mono_r; lia).
    change (2 ^ 8) with 256 in *. lia. }
  repeat split; try lia.
  intros Ht. apply is_terminal_true in Ht.
  destruct (Nat.le_gt_cases 4 k) as [H4 | H4]; [exact H4 | exfalso].
  assert (4 ^ Z.of_nat k <= 4 ^ 3) by (apply Z.pow_le_mono_r; lia).
  change (4 ^ 3) with 64 in *. lia.
Qed.

Lemma game_length_and_bounds_witness :
  reachable_in 1 (mkGameState 24 0 (-1) COMPUTER)
  /\ (1 <= 8)%nat /\ 8 * 2 ^ 1 <= 24 <= 18 * 4 ^ 1.
Proof.
  assert (H : reachable_in 1 (mkGameState 24 0 (-1) COMPUTER)).
  { apply (reachable_in_step 0 (mkGameState 8 0 0 HUMAN) 3).
    - apply reachable_in_start. lia.
    - simpl. auto. }
  split; [exact H |].
  pose proof (game_length_and_bounds _ _ H) as (H1 & H2 & _).
  split; [exact H1 | exact H2].
Defined.

(** ** The depth bound in an actual game *)

Lemma evaluate_terminal_outcome (s : GameState) :
  is_terminal s = true -> is_outcome (evaluate s).
Proof.
  intros Ht. unfold evaluate, is_outcome. rewrite Ht.
  destruct (human_score s >? computer_score s); [auto |].
  destruct (computer_score s >? human_score s); auto.
Qed.

Lemma exhaustive_base_case (s : GameState) (depth : Z) :
  exhaustive (current_number s) depth ->
  (depth =? 0) || is_terminal s = is_terminal s.
Proof.
  intros He. destruct (Z.eqb_spec depth 0) as [-> | Hd]; [| reflexivity].
  simpl. symmetry. apply is_terminal_true.
  destruct He as [He | He]; simpl in He; lia.
Qed.

Lemma exhaustive_successor (s : GameState) (depth m : Z) :
  0 < current_number s ->
  exhaustive (current_number s) depth ->
  depth <> 0 ->
  m = 2 \/ m = 3 \/ m = 4 ->
  0 < current_number (successor s m)
  /\ exhaustive (current_number (successor s m)) (depth - 1).
Proof.
  intros Hpos He Hd Hm. rewrite successor_current_number.
  split; [lia |].
  destruct He as [He | He]; [left; lia |].
  destruct (Z.lt_ge_cases depth 0) as [Hneg | Hnn]; [left; lia | right].
  replace depth with (Z.succ (depth - 1)) in He by lia.
  rewrite Z.pow_succ_r in He by lia.
  assert (HP : 0 < 2 ^ (depth - 1)) by (apply Z.pow_pos_nonneg; lia).
  nia.
Qed.

Section ValueLoops.

Variable rec : GameState -> option search_result.
Variable P : number -> Prop.

Lemma pure_max_loop_value :
  forall succs V Vm v vm,
    (forall move child val m,
       In (move, child) succs -> rec child = Some (val, m) -> P val) ->
    pure_max_loop rec succs V Vm = Some (v, vm) ->
    v = V \/ P v.
Proof.
  induction succs as [| [move child] rest IH]; simpl; intros V Vm v vm HP H.
  - inversion H; auto.
  - destruct (rec child) as [[val m] |] eqn:Ec; [| discriminate].
    assert (Hval : P val) by (eapply HP; [left; reflexivity | exact Ec]).
    destruct (num_gtb val V); apply IH in H; eauto.
    destruct H as [-> | H]; auto.
Qed.

Lemma pure_min_loop_value :
  forall succs V Vm v vm,
    (forall move child val m,
       In (move, child) succs -> rec child = Some (val, m) -> P val) ->
    pure_min_loop rec succs V Vm = Some (v, vm) ->
    v = V \/ P v.
Proof.
  induction succs as [| [move child] rest IH]; simpl; intros V Vm v vm HP H.
  - inversion H; auto.
  - destruct (rec child) as [[val m] |] eqn:Ec; [| discriminate].
    assert (Hval : P val) by (eapply HP; [left; reflexivity | exact Ec]).
    destruct (num_ltb val V); apply IH in H; eauto.
    destruct H as [-> | H]; auto.
Qed.

End ValueLoops.

Lemma minimax_pure_exhaustive_outcome :
  forall fuel s depth flag val m,
    0 < current_number s ->
    exhaustive (current_number s) depth ->
    minimax_pure fuel s depth flag = Some (val, m) ->
    exists v, val = Int v /\ is_outcome v.
Proof.
  induction fuel as [| fuel IH]; intros s depth flag val m Hpos He H;
    [discriminate |].
  simpl in H. rewrite (exhaustive_base_case s depth He) in H.
  destruct (is_terminal s) eqn:Ht.
  - inversion H; subst. eexists. split; [reflexivity |].
    apply evaluate_terminal_outcome, Ht.
  - assert (Hd : depth <> 0).
    { intros ->. apply is_terminal_false in Ht.
      destruct He as [He | He]; simpl in He; lia. }
    assert (HP : forall fl move child val' m',
               In (move, child) (get_successors s) ->
               minimax_pure fuel child (depth - 1) fl = Some (val', m') ->
               exists v, val' = Int v /\ is_outcome v).
    { intros fl move child val' m' Hin Hc.
      apply In_get_successors in Hin as (_ & Hm & ->).
      destruct (exhaustive_successor s depth move Hpos He Hd Hm) as [Hp' He'].
      eapply IH; eassumption. }
    destruct (minimax_pure_int (S fuel) s depth flag val m) as [z ->].
    { simpl. rewrite (exhaustive_base_case s depth He), Ht. exact H. }
    destruct flag.
    + eapply pure_max_loop_value in H as [Hv | Hv];
        [discriminate | exact Hv | apply HP].
    + eapply pure_min_loop_value in H as [Hv | Hv];
        [discriminate | exact Hv | apply HP].
Qed.

(** X6: when the number is at least 8 and the depth at least 8 (the window
    uses 10), no branch of the search stops at the depth bound: the score
    [minimax] returns is one of the three outcomes of a finished game,
    -999999, 0 or 999999, never a mere difference of scores. *)
Theorem minimax_depth_8_sees_the_end :
  forall fuel s depth flag c,
    8 <= current_number s -> 8 <= depth ->
    (Z.to_nat depth < fuel)%nat ->
    exists v m c',
      minimax fuel s depth flag c = Some ((Int v, m), c') /\ is_outcome v.
Proof.
  intros fuel s depth flag c Hn Hd Hf.
  destruct (minimax_pure_returns fuel s depth flag) as [[val m] Hr];
    [apply fuel_suffices_depth; lia |].
  destruct (minimax_pure_exhaustive_outcome fuel s depth flag val m)
    as (v & -> & Hv); [lia | | exact Hr |].
  - right. assert (2 ^ 8 <= 2 ^ depth) by (apply Z.pow_le_mono_r; lia).
    change (2 ^ 8) with 256 in *. nia.
  - rewrite <- (minimax_erase fuel s depth flag c) in Hr.
    apply result_Some in Hr as [c' Hr]. eauto.
Qed.

Lemma minimax_depth_8_sees_the_end_witness :
  8 <= current_number (mkGameState 8 0 0 COMPUTER) /\ 8 <= 10
  /\ exists v m c',
       minimax 11 (mkGameState 8 0 0 COMPUTER) 10 true 0 = Some ((Int v, m), c')
       /\ is_outcome v.
Proof.
  assert (H1 : 8 <= current_number (mkGameState 8 0 0 COMPUTER)) by (simpl; lia).
  assert (H2 : 8 <= 10) by lia.
  split; [exact H1 |]. split; [exact H2 |].
  apply (minimax_depth_8_sees_the_end 11 _ 10 true 0 H1 H2).
  simpl. lia.
Defined.

Section AgreeLoops.

Variables rec1 rec2 : GameState -> option search_result.

Lemma pure_max_loop_agree :
  forall succs V Vm r r',
    (forall move child x x',
       In (move, child) succs ->
       rec1 child = Some x -> rec2 child = Some x' -> fst x = fst x') ->
    pure_max_loop rec1 succs V Vm = Some r ->
    pure_max_loop rec2 succs V Vm = Some r' ->
    r = r'.
Proof.
  induction succs as [| [move child] rest IH]; simpl; intros V Vm r r' HA H H'.
  - congruence.
  - destruct (rec1 child) as [[v1 m1] |] eqn:E1; [| discriminate].
    destruct (rec2 child) as [[v2 m2] |] eqn:E2; [| discriminate].
    assert (v1 = v2) by (apply (HA move child _ _ (or_introl eq_refl) E1 E2)).
    subst v2.
    destruct (num_gtb v1 V); (eapply IH; [| exact H | exact H']);
      intros; eapply HA; eauto; right; eassumption.
Qed.

Lemma pure_min_loop_agree :
  forall succs V Vm r r',
    (forall move child x x',
       In (move, child) succs ->
       rec1 child = Some x -> rec2 child = Some x' -> fst x = fst x') ->
    pure_min_loop rec1 succs V Vm = Some r ->
    pure_min_loop rec2 succs V Vm = Some r' ->
    r = r'.
Proof.
  induction succs as [| [move child] rest IH]; simpl; intros V Vm r r' HA H H'.
  - congruence.
  - destruct (rec1 child) as [[v1 m1] |] eqn:E1; [| discriminate].
    destruct (rec2 child) as [[v2 m2] |] eqn:E2; [| discriminate].
    assert (v1 = v2) by (apply (HA move child _ _ (or_introl eq_refl) E1 E2)).
    subst v2.
    destruct (num_ltb v1 V); (eapply IH; [| exact H | exact H']);
      intros; eapply HA; eauto; right; eassumption.
Qed.

End AgreeLoops.

Lemma minimax_pure_exhaustive_agree :
  forall fuel fuel' s depth depth' flag r r',
    0 < current_number s ->
    exhaustive (current_number s) depth ->
    exhaustive (current_number s) depth' ->
    minimax_pure fuel s depth flag = Some r ->
    minimax_pure fuel' s depth' flag = Some r' ->
    r = r'.
Proof.
  induction fuel as [| fuel IH];
    intros fuel' s depth depth' flag r r' Hpos He He' H H'; [discriminate |].
  destruct fuel' as [| fuel']; [discriminate |].
  simpl in H, H'.
  rewrite (exhaustive_base_case s depth He) in H.
  rewrite (exhaustive_base_case s depth' He') in H'.
  destruct (is_terminal s) eqn:Ht; [congruence |].
  assert (Hd : depth <> 0 /\ depth' <> 0).
  { apply is_terminal_false in Ht.
    split; intros ->; [destruct He as [He | He] | destruct He' as [He' | He']];
      simpl in *; lia. }
  destruct Hd as [Hd Hd'].
  assert (HA : forall fl move child x x',
             In (move, child) (get_successors s) ->
             minimax_pure fuel child (depth - 1) fl = Some x ->
             minimax_pure fuel' child (depth' - 1) fl = Some x' ->
             fst x = fst x').
  { intros fl move child x x' Hin Hx Hx'.
    apply In_get_successors in Hin as (_ & Hm & ->).
    destruct (exhaustive_successor s depth move Hpos He Hd Hm) as [Hp1 He1].
    destruct (exhaustive_successor s depth' move Hpos He' Hd' Hm) as [_ He2].
    f_equal. exact (IH fuel' _ (depth - 1) (depth' - 1) fl x x' Hp1 He1 He2 Hx Hx'). }
  destruct flag.
  - eapply pure_max_loop_agree; [apply HA | exact H | exact H'].
  - eapply pure_min_loop_agree; [apply HA | exact H | exact H'].
Qed.

(** X7: for a number of at least 8, every depth of at least 8, and every
    negative depth (a search without depth bound), makes [minimax] return
    the same score and the same move: deepening the window's depth 10
    changes nothing. *)
Theorem minimax_depth_beyond_8_is_irrelevant :
  forall fuel fuel' s depth depth' flag c c',
    8 <= current_number s ->
    8 <= depth \/ depth < 0 ->
    8 <= depth' \/ depth' < 0 ->
    (12 <= fuel)%nat -> (12 <= fuel')%nat ->
    result (minimax fuel s depth flag c) = result (minimax fuel' s depth' flag c')
    /\ exists r, result (minimax fuel s depth flag c) = Some r.
Proof.
  intros fuel fuel' s depth depth' flag c c' Hn Hd Hd' Hf Hf'.
  assert (Hex : forall d, 8 <= d \/ d < 0 -> exhaustive (current_number s) d).
  { intros d [H | H]; [right | left; exact H].
    assert (2 ^ 8 <= 2 ^ d) by (apply Z.pow_le_mono_r; lia).
    change (2 ^ 8) with 256 in *. nia. }
  rewrite !minimax_erase.
  destruct (minimax_pure_returns fuel s depth flag) as [r Hr];
    [apply fuel_suffices_positive; lia |].
  destruct (minimax_pure_returns fuel' s depth' flag) as [r' Hr'];
    [apply fuel_suffices_positive; lia |].
  rewrite Hr, Hr'. split; [| eauto]. f_equal.
  eapply minimax_pure_exhaustive_agree; [| | | exact Hr | exact Hr']; auto; lia.
Qed.

Lemma minimax_depth_beyond_8_is_irrelevant_witness :
  8 <= current_number (mkGameState 8 0 0 COMPUTER)
  /\ result (minimax 12 (mkGameState 8 0 0 COMPUTER) 10 true 0)
     = result (minimax 12 (mkGameState 8 0 0 COMPUTER) (-1) true 0).
Proof.
  assert (H1 : 8 <= current_number (mkGameState 8 0 0 COMPUTER)) by (simpl; lia).
  split; [exact H1 |].
  apply (minimax_depth_beyond_8_is_irrelevant 12 12 _ 10 (-1) true 0 0 H1); lia.
Defined.

(** ** The two sides of the game *)

Lemma opponent_involutive (p : Player) : opponent (opponent p) = p.
Proof. destruct p; reflexivity. Qed.

Lemma successor_swap_sides (s : GameState) (m : Z) :
  successor (swap_sides s) m = swap_sides (successor s m).
Proof.
  unfold successor, swap_sides, copy. destruct s as [n h c p]. simpl.
  destruct (n * m mod 2 =? 0), p, (n * m <? 1200); reflexivity.
Qed.

Lemma evaluate_swap_sides (s : GameState) :
  evaluate (swap_sides s) = - evaluate s.
Proof.
  unfold evaluate, swap_sides, is_terminal. destruct s as [n h c p]. simpl.
  destruct (n >=? 1200); [| lia].
  destruct (Z.gtb_spec c h), (Z.gtb_spec h c); lia.
Qed.

Lemma get_successors_swap_sides (s : GameState) :
  get_successors (swap_sides s) =
  map (fun mc => (fst mc, swap_sides (snd mc))) (get_successors s).
Proof.
  unfold get_successors.
  replace (is_terminal (swap_sides s)) with (is_terminal s) by reflexivity.
  destruct (is_terminal s); [reflexivity |].
  simpl. rewrite !successor_swap_sides. reflexivity.
Qed.

Lemma num_ltb_opp (x y : number) :
  num_ltb (num_opp x) (num_opp y) = num_ltb y x.
Proof.
  destruct x as [| a |], y as [| b |]; simpl; try reflexivity.
  destruct (Z.ltb_spec (- a) (- b)), (Z.ltb_spec b a); try reflexivity; lia.
Qed.

Section MirrorLoops.

Variables rec rec' : GameState -> option search_result.

Hypothesis rec_mirror :
  forall child, rec' (swap_sides child) = opp_result (rec child).

Lemma pure_min_loop_mirror :
  forall succs V Vm,
    pure_min_loop rec' (map (fun mc => (fst mc, swap_sides (snd mc))) succs)
      (num_opp V) Vm
    = opp_result (pure_max_loop rec succs V Vm).
Proof.
  induction succs as [| [move child] rest IH]; intros V Vm; [reflexivity |].
  simpl. rewrite rec_mirror.
  destruct (rec child) as [[val m] |]; simpl; [| reflexivity].
  unfold num_gtb. rewrite num_ltb_opp.
  destruct (num_ltb V val); apply IH.
Qed.

Lemma pure_max_loop_mirror :
  forall succs V Vm,
    pure_max_loop rec' (map (fun mc => (fst mc, swap_sides (snd mc))) succs)
      (num_opp V) Vm
    = opp_result (pure_min_loop rec succs V Vm).
Proof.
  induction succs as [| [move child] rest IH]; intros V Vm; [reflexivity |].
  simpl. rewrite rec_mirror.
  destruct (rec child) as [[val m] |]; simpl; [| reflexivity].
  unfold num_gtb. rewrite num_ltb_opp.
  destruct (num_ltb val V); apply IH.
Qed.

End MirrorLoops.

Lemma minimax_pure_swap_sides :
  forall fuel s depth flag,
    minimax_pure fuel (swap_sides s) depth (negb flag)
    = opp_result (minimax_pure fuel s depth flag).
Proof.
  induction fuel as [| fuel IH]; intros s depth flag; [reflexivity |].
  simpl. replace (is_terminal (swap_sides s)) with (is_terminal s) by reflexivity.
  destruct ((depth =? 0) || is_terminal s).
  - simpl. rewrite evaluate_swap_sides. reflexivity.
  - rewrite get_successors_swap_sides. destruct flag; simpl negb.
    + apply (pure_min_loop_mirror _ _ (fun child => IH child (depth - 1) false)
               (get_successors s) NegInf None).
    + apply (pure_max_loop_mirror _ _ (fun child => IH child (depth - 1) true)
               (get_successors s) PosInf None).
Qed.

(** X8: the search is the same for both sides.  On the position with the
    two scores and the turn exchanged, [minimax] with the opposite flag
    returns the opposite score and the same move; in particular [evaluate]
    of the exchanged position is the opposite of [evaluate]. *)
Theorem minimax_swap_sides :
  forall fuel s depth flag c c',
    result (minimax fuel (swap_sides s) depth (negb flag) c)
    = opp_result (result (minimax fuel s depth flag c'))
    /\ evaluate (swap_sides s) = - evaluate s.
Proof.
  intros fuel s depth flag c c'. split.
  - rewrite !minimax_erase. apply minimax_pure_swap_sides.
  - apply evaluate_swap_sides.
Qed.

(** ** The window *)

Lemma apply_move_algorithm (g : GameGUI.t) (m : Z) :
  GameGUI.algorithm (GameGUI.apply_move g m) = GameGUI.algorithm g.
Proof.
  unfold GameGUI.apply_move.
  destruct g as [[n h c p] go alg lbl]; simpl.
  destruct (n * m >=? 1200), (n * m mod 2 =? 0), p; reflexivity.
Qed.

Lemma is_terminal_successor (s : GameState) (m : Z) :
  is_terminal (successor s m) = (current_number s * m >=? 1200).
Proof. unfold is_terminal. rewrite successor_current_number. reflexivity. Qed.

Lemma apply_move_consistent (g : GameGUI.t) (m : Z) :
  GameGUI.game_over g = false -> gui_consistent (GameGUI.apply_move g m).
Proof.
  intros Hgo. unfold gui_consistent.
  rewrite apply_move_game_over, apply_move_state, is_terminal_successor, Hgo.
  destruct (current_number (GameGUI.state g) * m >=? 1200); reflexivity.
Qed.

(** X9: [apply_move] plays the transition the search explores: the new
    state is the successor the search builds for that multiplier, one of
    the entries of [get_successors] when the state is not terminal and the
    multiplier is 2, 3 or 4; the algorithm setting and the node label are
    untouched, and from a game that is not over [game_over] becomes true
    exactly when the new state is terminal. *)
Theorem apply_move_is_search_transition (gui : GameGUI.t) (multiplier : Z) :
  GameGUI.state (GameGUI.apply_move gui multiplier)
  = successor (GameGUI.state gui) multiplier
  /\ GameGUI.algorithm (GameGUI.apply_move gui multiplier) = GameGUI.algorithm gui
  /\ GameGUI.nodes_label_var (GameGUI.apply_move gui multiplier)
     = GameGUI.nodes_label_var gui
  /\ (is_terminal (GameGUI.state gui) = false ->
      multiplier = 2 \/ multiplier = 3 \/ multiplier = 4 ->
      In (multiplier, GameGUI.state (GameGUI.apply_move gui multiplier))
         (get_successors (GameGUI.state gui)))
  /\ (GameGUI.game_over gui = false ->
      GameGUI.game_over (GameGUI.apply_move gui multiplier)
      = is_terminal (GameGUI.state (GameGUI.apply_move gui multiplier))).
Proof.
  split; [apply apply_move_state |].
  split; [apply apply_move_algorithm |].
  split; [apply apply_move_nodes_label_var |].
  split.
  - intros Ht Hm. rewrite apply_move_state. apply In_get_successors. auto.
  - apply apply_move_consistent.
Qed.

Lemma apply_move_is_search_transition_witness :
  let gui := GameGUI.mk (mkGameState 8 0 0 HUMAN) false "Minimax" 0 in
  is_terminal (GameGUI.state gui) = false
  /\ In (3, GameGUI.state (GameGUI.apply_move gui 3))
        (get_successors (GameGUI.state gui)).
Proof.
  intros gui.
  assert (H : is_terminal (GameGUI.state gui) = false) by reflexivity.
  split; [exact H |].
  apply (proj1 (proj2 (proj2 (proj2 (apply_move_is_search_transition gui 3))))).
  - exact H.
  - auto.
Defined.

(** [user_move] once a game has been started. *)
Lemma started_user_move (gui : GameGUI.t) (multiplier : Z) :
  (GameGUI.game_over gui = true \/ current_player (GameGUI.state gui) = COMPUTER ->
   GameGUI.user_move gui multiplier = gui)
  /\ (GameGUI.game_over gui = false ->
      current_player (GameGUI.state gui) = HUMAN ->
      let gui' := GameGUI.user_move gui multiplier in
      GameGUI.state gui' = successor (GameGUI.state gui) multiplier
      /\ gui_consistent gui'
      /\ (GameGUI.game_over gui' = false ->
          current_player (GameGUI.state gui') = COMPUTER)
      /\ (GameGUI.game_over gui' = true ->
          current_player (GameGUI.state gui') = HUMAN)).
Proof.
  unfold GameGUI.user_move. split.
  - intros [H | H]; rewrite H; [reflexivity |].
    destruct (GameGUI.game_over gui); reflexivity.
  - intros Hgo Hp. cbv zeta. rewrite Hgo, Hp. simpl.
    pose proof (apply_move_consistent gui multiplier Hgo) as Hc.
    split; [apply apply_move_state |]. split; [exact Hc |].
    unfold gui_consistent in Hc. rewrite Hc, apply_move_state.
    destruct (successor_turn_rule (GameGUI.state gui) multiplier) as [Hk Hs].
    rewrite Hp in Hk, Hs.
    split; intros Ht.
    + apply is_terminal_false in Ht. auto.
    + apply is_terminal_true in Ht. auto.
Qed.

Lemma window_user_move_started (gui : GameGUI.t) (multiplier : Z) :
  Window.user_move (Window.of_gui gui) multiplier
  = Returned (Window.of_gui (GameGUI.user_move gui multiplier)).
Proof.
  unfold Window.user_move, GameGUI.user_move, Window.of_gui, Window.gui_of.
  destruct gui as [st go alg lbl]. simpl.
  destruct go; [reflexivity |]. simpl.
  destruct (Player_eqb (current_player st) HUMAN); reflexivity.
Qed.

(** X10: a click on a move button before any game was started raises
    [AttributeError]: [self.state] is still [None] and [game_over] false.
    On a started game [user_move] ignores the click when the game is over
    or when it is not the human's turn; otherwise it plays the successor
    for the multiplier, keeps [game_over] equal to [is_terminal] of the new
    state, leaves the algorithm and the node label alone and, unless the
    move ended the game, hands the turn to the computer. *)
Theorem user_move_guard_and_effect (w : Window.t) (multiplier : Z) :
  Window.user_move Window.init multiplier = Raised AttributeError
  /\ (Window.game_over w = false -> Window.state w = None ->
      Window.user_move w multiplier = Raised AttributeError)
  /\ (Window.game_over w = true ->
      Window.user_move w multiplier = Returned w)
  /\ (forall st,
        Window.state w = Some st -> current_player st = COMPUTER ->
        Window.user_move w multiplier = Returned w)
  /\ (forall st,
        Window.game_over w = false ->
        Window.state w = Some st -> current_player st = HUMAN ->
        exists w',
          Window.user_move w multiplier = Returned w'
          /\ Window.state w' = Some (successor st multiplier)
          /\ Window.game_over w' = is_terminal (successor st multiplier)
          /\ Window.algorithm w' = Window.algorithm w
          /\ Window.nodes_label_var w' = Window.nodes_label_var w
          /\ (Window.game_over w' = false ->
              current_player (successor st multiplier) = COMPUTER)
          /\ (Window.game_over w' = true ->
              current_player (successor st multiplier) = HUMAN))
  /\ (forall gui,
        Window.user_move (Window.of_gui gui) multiplier
        = Returned (Window.of_gui (GameGUI.user_move gui multiplier))).
Proof.
  split; [reflexivity |].
  split; [intros Hgo Hst; unfold Window.user_move; rewrite Hgo, Hst; reflexivity |].
  split; [intros Hgo; unfold Window.user_move; rewrite Hgo; reflexivity |].
  split.
  { intros st Hst Hp. unfold Window.user_move. rewrite Hst, Hp. simpl.
    destruct (Window.game_over w); reflexivity. }
  split; [| intros gui; apply window_user_move_started].
  intros st Hgo Hst Hp.
  exists (Window.of_gui (GameGUI.apply_move (Window.gui_of st w) multiplier)).
  assert (Hgo' : GameGUI.game_over (Window.gui_of st w) = false) by exact Hgo.
  pose proof (apply_move_consistent (Window.gui_of st w) multiplier Hgo') as Hc.
  unfold gui_consistent in Hc. rewrite apply_move_state in Hc.
  destruct (successor_turn_rule st multiplier) as [Hk Hs]. rewrite Hp in Hk, Hs.
  split; [unfold Window.user_move; rewrite Hgo, Hst, Hp; reflexivity |].
  split; [simpl; rewrite apply_move_state; reflexivity |].
  split; [exact Hc |].
  split; [simpl; rewrite apply_move_algorithm; reflexivity |].
  split; [simpl; rewrite apply_move_nodes_label_var; reflexivity |].
  simpl Window.game_over. rewrite Hc.
  split; intros Ht.
  - apply is_terminal_false in Ht. auto.
  - apply is_terminal_true in Ht. auto.
Qed.

Lemma user_move_guard_and_effect_witness :
  Window.game_over Window.init = false
  /\ Window.state Window.init = None
  /\ Window.user_move Window.init 2 = Raised AttributeError.
Proof.
  assert (H1 : Window.game_over Window.init = false) by reflexivity.
  assert (H2 : Window.state Window.init = None) by reflexivity.
  split; [exact H1 |]. split; [exact H2 |].
  exact (proj1 (proj2 (user_move_guard_and_effect Window.init 2)) H1 H2).
Defined.

(** The move [computer_move] returns is the move of [minimax], whichever
    algorithm is selected. *)
Lemma computer_move_is_minimax_move :
  forall fuel s algorithm depth c,
    fuel_suffices fuel s depth -> depth <> 0 -> is_terminal s = false ->
    exists score move c',
      minimax_pure fuel s depth true = Some (Int score, Some move)
      /\ (move = 2 \/ move = 3 \/ move = 4)
      /\ computer_move fuel s algorithm depth c = Some (Some move, c')
      /\ c + 1 <= c'.
Proof.
  intros fuel s algorithm depth c Hf Hd Ht.
  destruct (minimax_pure_returns fuel s depth true Hf) as [[val m] Hr].
  destruct (minimax_pure_int _ _ _ _ _ _ Hr) as [z ->].
  pose proof Hr as Hab. rewrite <- alpha_beta_pure_full_window in Hab.
  destruct (alpha_beta_pure_move _ _ _ _ _ _ _ _ Hd Ht Hab) as (mv & -> & Hmv).
  exists z, mv. unfold computer_move, bind, ret.
  destruct (String.eqb algorithm "Minimax").
  - pose proof Hr as Hc.
    rewrite <- (minimax_erase fuel s depth true c) in Hc.
    apply result_Some in Hc as [c' Hc].
    exists c'. rewrite Hc.
    split; [exact Hr |]. split; [exact Hmv |]. split; [reflexivity |].
    eapply minimax_counts_itself; exact Hc.
  - pose proof Hab as Hc.
    rewrite <- (alpha_beta_erase fuel s depth NegInf PosInf true c) in Hc.
    apply result_Some in Hc as [c' Hc].
    exists c'. rewrite Hc.
    split; [exact Hr |]. split; [exact Hmv |]. split; [reflexivity |].
    eapply alpha_beta_counts_itself; exact Hc.
Qed.

(** X11: on a game that is not over, with the computer to move on a
    non-terminal state, [computer_turn] returns: it plays a move 2, 3 or 4,
    which is the move of [minimax] at depth 10 whichever algorithm is
    selected, leaves the successor for that move as the new state, keeps
    the algorithm setting, keeps [game_over] equal to [is_terminal], and
    leaves in the counter and in the label the number of nodes of that one
    search (the invocations [search_calls] counts for the selected
    algorithm), whatever the counter was. *)
Theorem computer_turn_plays_minimax_move :
  forall fuel gui,
    (11 <= fuel)%nat ->
    GameGUI.game_over gui = false ->
    current_player (GameGUI.state gui) = COMPUTER ->
    is_terminal (GameGUI.state gui) = false ->
    exists score move nodes gui',
      result (minimax fuel (GameGUI.state gui) 10 true 0)
      = Some (Int score, Some move)
      /\ (move = 2 \/ move = 3 \/ move = 4)
      /\ (forall c, GameGUI.computer_turn fuel gui c = Some (gui', nodes))
      /\ GameGUI.state gui' = successor (GameGUI.state gui) move
      /\ GameGUI.algorithm gui' = GameGUI.algorithm gui
      /\ GameGUI.nodes_label_var gui' = nodes
      /\ gui_consistent gui'
      /\ 1 <= nodes
      /\ search_calls fuel (GameGUI.state gui) (GameGUI.algorithm gui) 10
         = Some nodes.
Proof.
  intros fuel gui Hf Hgo Hp Ht.
  destruct (computer_move_is_minimax_move fuel (GameGUI.state gui)
              (GameGUI.algorithm gui) 10 0)
    as (score & move & nodes & Hmm & Hmv & Hcm & Hn);
    [left; lia | lia | exact Ht |].
  exists score, move, nodes.
  exists (GameGUI.apply_move (GameGUI.set_nodes_label_var nodes gui) move).
  split; [rewrite minimax_erase; exact Hmm |].
  split; [exact Hmv |].
  split.
  { intros c. unfold GameGUI.computer_turn. rewrite Hgo, Hp. simpl.
    unfold bind, reset, get_counter, ret. rewrite Hcm. reflexivity. }
  split; [rewrite apply_move_state; reflexivity |].
  split; [rewrite apply_move_algorithm; reflexivity |].
  split; [rewrite apply_move_nodes_label_var; reflexivity |].
  split; [apply apply_move_consistent; exact Hgo |].
  split; [lia |].
  pose proof (computer_move_count fuel (GameGUI.state gui)
                (GameGUI.algorithm gui) 10 0) as Hk.
  rewrite Hcm in Hk. simpl in Hk.
  destruct (search_calls fuel (GameGUI.state gui) (GameGUI.algorithm gui) 10)
    as [k |]; [| discriminate].
  simpl in Hk. inversion Hk. reflexivity.
Qed.

Lemma computer_turn_plays_minimax_move_witness :
  let gui := GameGUI.mk (mkGameState 600 0 0 COMPUTER) false "Alpha-Beta" 0 in
  (11 <= 11)%nat
  /\ exists score move nodes gui',
       result (minimax 11 (GameGUI.state gui) 10 true 0)
       = Some (Int score, Some move)
       /\ (move = 2 \/ move = 3 \/ move = 4)
       /\ (forall c, GameGUI.computer_turn 11 gui c = Some (gui', nodes))
       /\ GameGUI.state gui' = successor (GameGUI.state gui) move
       /\ GameGUI.algorithm gui' = GameGUI.algorithm gui
       /\ GameGUI.nodes_label_var gui' = nodes
       /\ gui_consistent gui'
       /\ 1 <= nodes
       /\ search_calls 11 (GameGUI.state gui) (GameGUI.algorithm gui) 10
          = Some nodes.
Proof.
  intros gui.
  assert (H : (11 <= 11)%nat) by lia.
  split; [exact H |].
  apply (computer_turn_plays_minimax_move 11 gui H); reflexivity.
Defined.

(** X12: [computer_turn] does nothing, and leaves the counter alone, when
    the game is over or it is the human's turn; but when [game_over] is
    false, the computer is to move and the state is already terminal (a
    game started with a number of 1200 or more), the search yields no move
    and [apply_move(None)] raises: the call has no value. *)
Theorem computer_turn_guard_and_failure :
  forall fuel gui c,
    (GameGUI.game_over gui = true \/ current_player (GameGUI.state gui) = HUMAN ->
     GameGUI.computer_turn fuel gui c = Some (gui, c))
    /\ (GameGUI.game_over gui = false ->
        current_player (GameGUI.state gui) = COMPUTER ->
        is_terminal (GameGUI.state gui) = true ->
        GameGUI.computer_turn fuel gui c = None).
Proof.
  intros fuel gui c. unfold GameGUI.computer_turn. split.
  - intros [H | H]; rewrite H; [reflexivity |].
    destruct (GameGUI.game_over gui); reflexivity.
  - intros Hgo Hp Ht. rewrite Hgo, Hp. simpl.
    unfold bind, reset, get_counter, ret, no_value, computer_move.
    destruct fuel as [| fuel];
      [destruct (String.eqb (GameGUI.algorithm gui) "Minimax"); reflexivity |].
    simpl. unfold bind, tick, ret. rewrite Ht.
    destruct (String.eqb (GameGUI.algorithm gui) "Minimax"); reflexivity.
Qed.

Lemma computer_turn_guard_and_failure_witness :
  let gui := GameGUI.mk (mkGameState 1200 0 0 COMPUTER) false "Minimax" 0 in
  GameGUI.start_game 1200 "Computer" "Minimax" 5 = Some (gui, 0)
  /\ GameGUI.computer_turn 11 gui 0 = None.
Proof.
  intros gui. split; [reflexivity |].
  apply (proj2 (computer_turn_guard_and_failure 11 gui 0)); reflexivity.
Defined.

Lemma session_consistent (gui : GameGUI.t) :
  session gui -> gui_consistent gui.
Proof.
  induction 1 as [n fp alg c gui c' Hn Hs | gui m Hs IH Hm
                 | fuel gui c gui' c' Hs IH Hc].
  - unfold GameGUI.start_game, bind, reset, ret in Hs. inversion Hs; subst.
    unfold gui_consistent. simpl. symmetry. apply is_terminal_false. exact Hn.
  - unfold GameGUI.user_move.
    destruct (GameGUI.game_over gui) eqn:Hgo; [exact IH |].
    destruct (current_player (GameGUI.state gui)); simpl; [| exact IH].
    apply apply_move_consistent. exact Hgo.
  - unfold GameGUI.computer_turn in Hc.
    destruct (GameGUI.game_over gui) eqn:Hgo;
      [simpl in Hc; inversion Hc; subst; exact IH |].
    destruct (current_player (GameGUI.state gui)); simpl in Hc;
      [inversion Hc; subst; exact IH |].
    unfold bind, reset, get_counter, ret, no_value in Hc.
    destruct (computer_move fuel (GameGUI.state gui) (GameGUI.algorithm gui) 10 0)
      as [[[mv |] n] |]; try discriminate.
    inversion Hc; subst. apply apply_move_consistent. exact Hgo.
Qed.

(** X13: throughout a session (a game started with a number below 1200,
    then any clicks on the three buttons and any turns of the computer),
    [game_over] is true exactly when the state is terminal, and
    [computer_turn] always returns: the search never hands [apply_move] a
    missing move. *)
Theorem session_never_fails (gui : GameGUI.t) :
  session gui ->
  gui_consistent gui
  /\ forall fuel c,
       (11 <= fuel)%nat ->
       exists gui' c', GameGUI.computer_turn fuel gui c = Some (gui', c').
Proof.
  intros Hs. pose proof (session_consistent gui Hs) as Hc.
  split; [exact Hc |]. intros fuel c Hf.
  unfold gui_consistent in Hc.
  destruct (GameGUI.game_over gui) eqn:Hgo.
  - unfold GameGUI.computer_turn, ret. rewrite Hgo. simpl. eauto.
  - destruct (current_player (GameGUI.state gui)) eqn:Hp.
    + unfold GameGUI.computer_turn, ret. rewrite Hgo, Hp. simpl. eauto.
    + destruct (computer_move_is_minimax_move fuel (GameGUI.state gui)
                  (GameGUI.algorithm gui) 10 0)
        as (score & move & nodes & _ & _ & Hcm & _);
        [left; lia | lia | symmetry; exact Hc |].
      unfold GameGUI.computer_turn. rewrite Hgo, Hp. simpl.
      unfold bind, reset, get_counter, ret. rewrite Hcm. eauto.
Qed.

Lemma session_never_fails_witness :
  let gui := GameGUI.mk (mkGameState 16 0 (-1) COMPUTER) false "Minimax" 0 in
  session gui
  /\ gui_consistent gui
  /\ exists gui' c', GameGUI.computer_turn 11 gui 0 = Some (gui', c').
Proof.
  intros gui.
  assert (H : session gui).
  { apply (session_user_move
             (GameGUI.mk (mkGameState 8 0 0 HUMAN) false "Minimax" 0) 2);
      [| auto].
    apply (session_start 8 "Human" "Minimax" 3 _ 0); [lia | reflexivity]. }
  split; [exact H |].
  destruct (session_never_fails gui H) as [H1 H2].
  split; [exact H1 |]. apply H2. lia.
Defined.

(** ** The status line *)

(** X14: [update_display] announces the winner that [evaluate] reports: on
    a terminal state the status line says the human wins exactly when
    [evaluate] is negative, the computer when it is positive and a tie when
    it is 0; on a non-terminal state it names the player to move; the
    scoreboard shows the two scores and the number in decimal; and when no
    game was started only the status line changes. *)
Theorem update_display_announces_evaluate :
  forall st l,
    let l' := Display.update_display (Some st) l in
    (is_terminal st = true ->
     Display.status_label_var l' =
       if evaluate st <? 0 then "--- GAME OVER ---  Human Wins!"%string
       else if 0 <? evaluate st then "--- GAME OVER ---  Computer Wins!"%string
       else "--- GAME OVER ---  It's a Tie!"%string)
    /\ (is_terminal st = false ->
        Display.status_label_var l' =
          match current_player st with
          | HUMAN => "Current Player: Human"%string
          | COMPUTER => "Current Player: Computer"%string
          end)
    /\ Display.human_score_var l'
       = ("Human Score: " ++ Display.str (human_score st))%string
    /\ Display.computer_score_var l'
       = ("Computer Score: " ++ Display.str (computer_score st))%string
    /\ Display.current_number_var l'
       = ("Current Number: " ++ Display.str (current_number st))%string
    /\ Display.update_display None l
       = Display.set_status "No game in progress." l.
Proof.
  intros st l l'. subst l'. unfold Display.update_display.
  split; [| split].
  - intros Ht. rewrite Ht. unfold evaluate. rewrite Ht.
    destruct (Z.gtb_spec (human_score st) (computer_score st)); [reflexivity |].
    destruct (Z.gtb_spec (computer_score st) (human_score st)); reflexivity.
  - intros Ht. rewrite Ht. destruct (current_player st); reflexivity.
  - destruct (is_terminal st);
      [destruct (human_score st >? computer_score st);
       [| destruct (computer_score st >? human_score st)] |];
      repeat split; reflexivity.
Qed.

Lemma update_display_announces_evaluate_witness :
  let st := mkGameState 1200 0 (-1) HUMAN in
  is_terminal st = true
  /\ Display.status_label_var
       (Display.update_display (Some st) (Display.mk_labels "" "" "" ""))
     = "--- GAME OVER ---  Human Wins!"%string.
Proof.
  intros st.
  assert (H : is_terminal st = true) by reflexivity.
  split; [exact H |].
  exact (proj1 (update_display_announces_evaluate st
                  (Display.mk_labels "" "" "" "")) H).
Defined.
